(** * LLM function-calling stock demo: a shallow embedding and its properties

    The program under study is [llm_function_stock_price_demo.py]: two
    lookups against a financial-data provider ([search_stock_symbol],
    [get_stock_price]), the accumulation of a streamed chat completion
    ([process_stream], [get_model_response]), the dispatch of the tool
    calls the model asks for ([process_tool_calls]) and the fixed
    three-round conversation ([get_stock_info]).

    Python values are embedded as follows.
    - JSON data ([response.json()], [json.loads]) is the inductive [json];
      a [dict] is an association list in insertion order, looked up by its
      first matching key.
    - A [float] is a [spec_float] (IEEE 754 binary64 without NaN payload),
      compared with [SFltb] as Python's [<] does.
    - A [str] is a [string] whose characters are code points below 256.
    - An exception is a value of [exn]; a computation that may raise
      returns a [result].
    - What the interpreter and the [json] module do to text ([float] of a
      [str], [repr] of a [float], [json.loads], [str] of a non-text value)
      is not reimplemented: it is the interface [Builtins], over which all
      statements are universally quantified.
    - The network, the chat provider and the terminal are the record
      [provider] (what the outside answers) and the state [world] (what
      has been read, written and requested so far). *)

From Stdlib Require Import ZArith Lia Permutation.
From Stdlib Require Import SpecFloat.
From stdpp Require Import base list strings gmap pretty sorting.

(** ** Exceptions and results *)

Inductive exn : Type :=
| KeyError (key : string)
| IndexError
| TypeError
| ValueError
| AttributeError
| OverflowError
| JSONDecodeError
| EOFError
| ExternalError (what : string).

(** [KeyError] and [IndexError] are the subclasses of [LookupError]. *)
Definition is_lookup_error (e : exn) : bool :=
  match e with
  | KeyError _ | IndexError => true
  | _ => false
  end.

Inductive result (A : Type) : Type :=
| Ok (a : A)
| Raise (e : exn).
Arguments Ok {A} a.
Arguments Raise {A} e.

Definition result_bind {A B : Type} (r : result A) (k : A -> result B) : result B :=
  match r with
  | Ok a => k a
  | Raise e => Raise e
  end.

Notation "'let?' x ':=' r 'in' k" := (result_bind r (fun x => k))
  (at level 10, x pattern, r at level 100, k at level 200).

Definition raises {A : Type} (r : result A) : Prop :=
  match r with
  | Ok _ => False
  | Raise _ => True
  end.

(** [[f(x) for x in l]]: the first element on which [f] raises decides. *)
Fixpoint result_map {A B : Type} (f : A -> result B) (l : list A) : result (list B) :=
  match l with
  | [] => Ok []
  | x :: l' =>
      let? y := f x in
      let? ys := result_map f l' in
      Ok (y :: ys)
  end.

(** ** JSON values *)

Set Warnings "-register-all".

Inductive json : Type :=
| JNull
| JBool (b : bool)
| JInt (z : Z)
| JFloat (f : spec_float)
| JStr (s : string)
| JList (items : list json)
| JDict (fields : list (string * json)).

(** Lookup of a key in a [dict]. *)
Fixpoint assoc {V : Type} (k : string) (fields : list (string * V)) : option V :=
  match fields with
  | [] => None
  | (k', v) :: rest => if String.eqb k' k then Some v else assoc k rest
  end.

(** [needle in haystack] for two [str]: a substring test. *)
Fixpoint is_substring (needle haystack : string) : bool :=
  String.prefix needle haystack ||
  match haystack with
  | EmptyString => false
  | String _ rest => is_substring needle rest
  end.

(** [k in d] where [k] is a [str]: key membership in a [dict], element
    membership in a [list], substring in a [str], [TypeError] otherwise. *)
Definition py_contains (k : string) (d : json) : result bool :=
  match d with
  | JDict fields => Ok (bool_decide (is_Some (assoc k fields)))
  | JList items =>
      Ok (existsb (fun v => match v with JStr s => String.eqb s k | _ => false end) items)
  | JStr s => Ok (is_substring k s)
  | _ => Raise TypeError
  end.

(** [d[k]] where [k] is a [str]. *)
Definition py_getitem (d : json) (k : string) : result json :=
  match d with
  | JDict fields =>
      match assoc k fields with
      | Some v => Ok v
      | None => Raise (KeyError k)
      end
  | _ => Raise TypeError
  end.

(** [d.get(k, default)]: only a [dict] has the method. *)
Definition py_get (d : json) (k : string) (dflt : json) : result json :=
  match d with
  | JDict fields => Ok (default dflt (assoc k fields))
  | _ => Raise AttributeError
  end.

(** ** Floats

    [float(v)] accepts a [str], an [int], a [float] or a [bool]. An [int]
    is rounded to the nearest binary64 (ties to even) and raises
    [OverflowError] when that is out of range. *)

Definition float_prec : Z := 53.
Definition float_emax : Z := 1024.

Definition float_of_int (z : Z) : result spec_float :=
  match binary_normalize float_prec float_emax z 0 false with
  | S754_infinity _ => Raise OverflowError
  | f => Ok f
  end.

Definition float_lt (x y : spec_float) : bool := SFltb x y.

Definition float_is_nan (x : spec_float) : bool :=
  match x with
  | S754_nan => true
  | _ => false
  end.

(** [x == y] on floats that are not NaN: neither is below the other. *)
Definition float_same (x y : spec_float) : bool :=
  negb (float_lt x y) && negb (float_lt y x).

(** ** The interpreter's text conversions *)

Class Builtins : Type := {
  (** [float(s)] for a [str]; [None] when it raises [ValueError]. *)
  float_of_str : string -> option spec_float;
  (** [repr(x)] for a finite [float]. *)
  float_repr : spec_float -> string;
  (** [json.loads(s)]; [None] when it raises [JSONDecodeError]. *)
  json_loads : string -> option json;
  (** [str(v)] for a value that is not a [str], as an f-string formats it. *)
  str_of_value : json -> string;
}.

Section WithBuiltins.
Context `{Builtins}.

(** [float(v)] *)
Definition py_float (v : json) : result spec_float :=
  match v with
  | JStr s =>
      match float_of_str s with
      | Some f => Ok f
      | None => Raise ValueError
      end
  | JInt z => float_of_int z
  | JFloat f => Ok f
  | JBool b => float_of_int (if b then 1 else 0)
  | JNull | JList _ | JDict _ => Raise TypeError
  end.

(** [f'{v}'] *)
Definition py_format (v : json) : string :=
  match v with
  | JStr s => s
  | _ => str_of_value v
  end.

End WithBuiltins.

(** ** [sorted]

    [list.sort] computes the key of every element first, in order; with
    [reverse=True] it reverses the list, sorts it stably in ascending
    order and reverses the outcome, which keeps equal keys in their
    original order. It compares keys with [<] only. CPython merges runs
    where [sort_stable] inserts: on keys that [<] orders as a strict weak
    order (floats without NaN) both return the one stable ordering
    ([stable_ordering_unique] below). With a NaN among the keys the two
    may differ, and nothing is stated about that case. *)

Section Sorting.
Context {A : Type} (lt : A -> A -> bool).

Fixpoint insert_sorted (x : A) (l : list A) : list A :=
  match l with
  | [] => [x]
  | y :: l' => if lt y x then y :: insert_sorted x l' else x :: y :: l'
  end.

Fixpoint sort_stable (l : list A) : list A :=
  match l with
  | [] => []
  | x :: l' => insert_sorted x (sort_stable l')
  end.

End Sorting.

Definition keyed_lt {A : Type} (a b : spec_float * A) : bool := float_lt a.1 b.1.

(** [sorted(l, key=key, reverse=reverse)] for a key that returns a float. *)
Definition py_sorted {A : Type} (key : A -> result spec_float) (reverse : bool)
    (l : list A) : result (list A) :=
  let? keys := result_map key l in
  let keyed := zip keys l in
  let keyed := if reverse then list.reverse keyed else keyed in
  let ordered := sort_stable keyed_lt keyed in
  Ok ((if reverse then list.reverse ordered else ordered).*2).

(** What iterating over a value yields: the items of a [list], the keys
    of a [dict], the characters of a [str]. *)
Definition py_iter (v : json) : result (list json) :=
  match v with
  | JList items => Ok items
  | JDict fields => Ok (JStr <$> fields.*1)
  | JStr s => Ok ((fun c => JStr (String c EmptyString)) <$> String.list_ascii_of_string s)
  | _ => Raise TypeError
  end.

(** ** [json.dumps], with its default settings *)

Definition dquote : string := String (Ascii.ascii_of_nat 34) EmptyString.
Definition backslash : string := String (Ascii.ascii_of_nat 92) EmptyString.

Definition hex_digit (n : nat) : string :=
  String.substring n 1 "0123456789abcdef".

(** One character of a string literal ([ensure_ascii=True]). *)
Definition escape_char (c : Ascii.ascii) : string :=
  let n := Ascii.nat_of_ascii c in
  if n =? 34 then backslash +:+ dquote
  else if n =? 92 then backslash +:+ backslash
  else if n =? 10 then backslash +:+ "n"
  else if n =? 13 then backslash +:+ "r"
  else if n =? 9 then backslash +:+ "t"
  else if n =? 8 then backslash +:+ "b"
  else if n =? 12 then backslash +:+ "f"
  else if (32 <=? n) && (n <=? 126) then String c EmptyString
  else backslash +:+ "u00" +:+ hex_digit (n / 16) +:+ hex_digit (n mod 16).

Definition encode_str (s : string) : string :=
  dquote +:+ String.concat "" (escape_char <$> String.list_ascii_of_string s) +:+ dquote.

Section Dumps.
Context `{Builtins}.

Definition encode_float (f : spec_float) : string :=
  match f with
  | S754_nan => "NaN"
  | S754_infinity false => "Infinity"
  | S754_infinity true => "-Infinity"
  | _ => float_repr f
  end.

Fixpoint json_dumps (v : json) : string :=
  match v with
  | JNull => "null"
  | JBool true => "true"
  | JBool false => "false"
  | JInt z => pretty z
  | JFloat f => encode_float f
  | JStr s => encode_str s
  | JList items => "[" +:+ String.concat ", " (map json_dumps items) +:+ "]"
  | JDict fields =>
      "{" +:+ String.concat ", "
               (map (fun kv => encode_str kv.1 +:+ ": " +:+ json_dumps kv.2) fields) +:+ "}"
  end.

End Dumps.

(** ** Computations with state

    A computation reads and updates a state and returns or raises; the
    state it leaves behind when it raises is kept, since the appends made
    before an exception stay in the list the caller holds. *)

Definition M (S A : Type) : Type := S -> result A * S.

Definition ret {S A : Type} (a : A) : M S A := fun s => (Ok a, s).

Definition raise {S A : Type} (e : exn) : M S A := fun s => (Raise e, s).

Definition lift {S A : Type} (r : result A) : M S A := fun s => (r, s).

Definition bind {S A B : Type} (m : M S A) (k : A -> M S B) : M S B :=
  fun s =>
    match m s with
    | (Ok a, s') => k a s'
    | (Raise e, s') => (Raise e, s')
    end.

Notation "'let!' x ':=' m 'in' k" := (bind m (fun x => k))
  (at level 10, x pattern, m at level 100, k at level 200).

(** [for x in l: body(x)] *)
Fixpoint for_each {S A : Type} (l : list A) (body : A -> M S unit) : M S unit :=
  match l with
  | [] => ret tt
  | x :: l' => let! _ := body x in for_each l' body
  end.

(** ** Chat messages and streamed fragments *)

Record function_call : Type := {
  name : string;
  arguments : string;
}.

Record tool_call : Type := {
  id : string;
  function : function_call;
}.

(** A message of the conversation: a [dict] with the keys [role] and
    [content] and, depending on who wrote it, [tool_calls] (an assistant
    message) or [tool_call_id] (a tool message). *)
Record message : Type := {
  role : string;
  content : string;
  tool_calls : option (list tool_call);
  tool_call_id : option string;
}.

(** [chunk.choices[i].delta]: [None] stands for an attribute that is
    missing or is [None]. *)
Record delta : Type := {
  delta_content : option string;
  delta_tool_calls : option (list tool_call);
}.

Record chunk : Type := {
  choices : list delta;
}.

(** A streamed response: the fragments it yields, and the exception that
    ends it when the transport fails before the stream is exhausted. *)
Record stream : Type := {
  fragments : list chunk;
  failure : option exn;
}.

(** ** The outside world *)

Record chat_request : Type := {
  request_messages : list message;
  request_tools : json;
}.

(** What has happened so far: the lines the user has yet to type, the
    text written to the terminal, the URLs fetched and the chat requests
    issued (oldest first). *)
Record world : Type := {
  stdin : list string;
  stdout : list string;
  http_log : list string;
  chat_log : list chat_request;
}.

(** What the outside answers, given everything asked before. *)
Record provider : Type := {
  alphavantage_api_key : string;
  (** [requests.get(url).json()] *)
  http_get_json : list string -> string -> result json;
  (** [client.chat.completions.create(..., stream=True)] *)
  chat_completions_create : list chat_request -> chat_request -> result stream;
}.

Definition print (text : string) : M world unit :=
  fun w =>
    (Ok tt, {| stdin := stdin w; stdout := stdout w ++ [text];
               http_log := http_log w; chat_log := chat_log w |}).

Definition input (prompt : string) : M world string :=
  fun w =>
    match stdin w with
    | [] =>
        (Raise EOFError, {| stdin := []; stdout := stdout w ++ [prompt];
                            http_log := http_log w; chat_log := chat_log w |})
    | line :: rest =>
        (Ok line, {| stdin := rest; stdout := stdout w ++ [prompt];
                     http_log := http_log w; chat_log := chat_log w |})
    end.

(** The world after one more URL was fetched. *)
Definition fetched (url : string) (w : world) : world :=
  {| stdin := stdin w; stdout := stdout w;
     http_log := http_log w ++ [url]; chat_log := chat_log w |}.

(** The world after one more chat request was issued. *)
Definition requested (request : chat_request) (w : world) : world :=
  {| stdin := stdin w; stdout := stdout w;
     http_log := http_log w; chat_log := chat_log w ++ [request] |}.

Definition requests_get_json (P : provider) (url : string) : M world json :=
  fun w => (http_get_json P (http_log w) url, fetched url w).

Definition create_completion (P : provider) (request : chat_request) : M world stream :=
  fun w => (chat_completions_create P (chat_log w) request, requested request w).

(** ** Alphavantage functions *)

Section Program.
Context `{Builtins} (P : provider).

(** The sort key [lambda x: float(x.get('9. matchScore', 0))]. *)
Definition match_score (x : json) : result spec_float :=
  let? v := py_get x "9. matchScore" (JInt 0) in
  py_float v.

(** One element of the list comprehension of [search_stock_symbol]; the
    [dict] display evaluates its values from top to bottom. *)
Definition format_match (m : json) : result json :=
  let? symbol := py_getitem m "1. symbol" in
  let? name := py_getitem m "2. name" in
  let? region := py_getitem m "4. region" in
  let? raw_score := py_getitem m "9. matchScore" in
  let? score := py_float raw_score in
  Ok (JDict [("symbol", symbol); ("name", name); ("region", region);
             ("score", JFloat score)]).

(** [search_stock_symbol] from the decoded response on (lines 46-61). *)
Definition search_stock_symbol_result (data : json) : result string :=
  let? present := py_contains "bestMatches" data in
  if (present : bool) then
    let? best := py_getitem data "bestMatches" in
    let? items := py_iter best in
    let? matches := py_sorted match_score true items in
    let? results := result_map format_match matches in
    Ok (json_dumps (JList results))
  else Ok (json_dumps (JList [])).

Definition search_url (keywords : json) : string :=
  "https://www.alphavantage.co/query?function=SYMBOL_SEARCH&keywords="
  +:+ py_format keywords +:+ "&apikey=" +:+ alphavantage_api_key P.

Definition search_stock_symbol (keywords : json) : M world string :=
  let url := search_url keywords in
  let! data := requests_get_json P url in
  lift (search_stock_symbol_result data).

Definition no_price_data : json :=
  JDict [("error", JStr "No price data available")].

(** [get_stock_price] from the decoded response on (lines 77-85). *)
Definition get_stock_price_result (data : json) : result string :=
  let? present := py_contains "Global Quote" data in
  if (present : bool) then
    let? quote := py_getitem data "Global Quote" in
    let? symbol := py_get quote "01. symbol" JNull in
    let? price := py_get quote "05. price" JNull in
    let? change := py_get quote "09. change" JNull in
    let? change_percent := py_get quote "10. change percent" JNull in
    Ok (json_dumps (JDict [("symbol", symbol); ("price", price); ("change", change);
                           ("change_percent", change_percent)]))
  else Ok (json_dumps no_price_data).

Definition quote_url (symbol : json) : string :=
  "https://www.alphavantage.co/query?function=GLOBAL_QUOTE&symbol="
  +:+ py_format symbol +:+ "&apikey=" +:+ alphavantage_api_key P.

Definition get_stock_price (symbol : json) : M world string :=
  let url := quote_url symbol in
  let! data := requests_get_json P url in
  lift (get_stock_price_result data).

(** ** Groq chat helpers *)

(** The body of the loop of [process_stream], on the pair
    [(full_text, tool_calls)]. *)
Definition process_chunk (acc : string * list tool_call) (c : chunk)
    : M world (string * list tool_call) :=
  let '(full_text, tool_calls) := acc in
  match choices c with
  | [] => raise IndexError
  | d :: _ =>
      let! full_text :=
        match delta_content d with
        | Some (String _ _ as text) =>
            let! _ := print text in
            ret (full_text +:+ text)
        | _ => ret full_text
        end in
      let tool_calls :=
        match delta_tool_calls d with
        | Some ((_ :: _) as calls) => tool_calls ++ calls
        | _ => tool_calls
        end in
      ret (full_text, tool_calls)
  end.

Fixpoint process_chunks (acc : string * list tool_call) (chunks : list chunk)
    : M world (string * list tool_call) :=
  match chunks with
  | [] => ret acc
  | c :: rest =>
      let! acc := process_chunk acc c in
      process_chunks acc rest
  end.

Definition process_stream (response : stream) : M world message :=
  let! (full_text, tool_calls) := process_chunks ("", []) (fragments response) in
  let! _ := match failure response with
            | Some e => raise e
            | None => ret tt
            end in
  ret {| role := "assistant"; content := full_text;
         tool_calls := Some tool_calls; tool_call_id := None |}.

Definition get_model_response (messages : list message) (tools : json) : M world message :=
  let! response_stream :=
    create_completion P {| request_messages := messages; request_tools := tools |} in
  process_stream response_stream.

End Program.

(** ** The conversation

    [messages] is one list object: [get_stock_info] creates it, hands it
    to [process_tool_calls], which appends to it in place, and sends it
    with every chat request. The state [session] holds that list beside
    the outside world. A tool function gets the world only, never the
    list. *)

Record session : Type := {
  messages : list message;
  outside : world;
}.

Definition on_world {A : Type} (m : M world A) : M session A :=
  fun s =>
    let (r, w) := m (outside s) in
    (r, {| messages := messages s; outside := w |}).

(** [messages.append(m)] *)
Definition append_message (m : message) : M session unit :=
  fun s => (Ok tt, {| messages := messages s ++ [m]; outside := outside s |}).

(** [messages = l] *)
Definition assign_messages (l : list message) : M session unit :=
  fun s => (Ok tt, {| messages := l; outside := outside s |}).

Definition read_messages : M session (list message) :=
  fun s => (Ok (messages s), s).

(** A callable of the registry, applied to the unpacked mapping of
    keyword arguments. *)
Abbreviation tool_function := (list (string * json) -> M world string).

(** The call of [def f(param)] with unpacked keyword arguments: the
    mapping must bind [param] and nothing else. *)
Definition call_with_kwargs (param : string) (f : json -> M world string) : tool_function :=
  fun kwargs =>
    match kwargs with
    | [(k, v)] => if String.eqb k param then f v else raise TypeError
    | _ => raise TypeError
    end.

Section Conversation.
Context `{Builtins} (P : provider).

(** The body of the loop of [process_tool_calls]. *)
Definition process_tool_call (available_functions : gmap string tool_function)
    (tool_call : tool_call) : M session unit :=
  let function_name := name (function tool_call) in
  match available_functions !! function_name with
  | Some function_to_call =>
      let! function_args :=
        lift (match json_loads (arguments (function tool_call)) with
              | Some v => Ok v
              | None => Raise JSONDecodeError
              end) in
      let! kwargs :=
        lift (match function_args with
              | JDict fields => Ok fields
              | _ => Raise TypeError
              end) in
      let! function_response := on_world (function_to_call kwargs) in
      append_message {| role := "tool"; content := function_response;
                        tool_calls := None; tool_call_id := Some (id tool_call) |}
  | None => ret tt
  end.

Definition process_tool_calls (response_message : message)
    (available_functions : gmap string tool_function) : M session unit :=
  for_each (default [] (tool_calls response_message))
           (process_tool_call available_functions).

Definition system_prompt : string :=
  "You are a helpful stock market assistant. When searching for a stock, first help find the correct symbol use the search_stock_symbol tool to find matching stock symbols, then get its current price using the get_stock_price tool. If multiple symbols are found, ask the user which one they want to look up, return only a numbered list of symbols along with the company name and region, with no additional text or questions. Present the information in a clear, organized way.".

Definition plain_message (role content : string) : message :=
  {| role := role; content := content; tool_calls := None; tool_call_id := None |}.

Definition tool_schema (name description param param_description : string) : json :=
  JDict [("type", JStr "function");
         ("function", JDict [
            ("name", JStr name);
            ("description", JStr description);
            ("parameters", JDict [
               ("type", JStr "object");
               ("properties", JDict [
                  (param, JDict [("type", JStr "string");
                                 ("description", JStr param_description)])]);
               ("required", JList [JStr param])])])].

Definition tools : json :=
  JList [
    tool_schema "search_stock_symbol"
      "Search for stock symbols by company name or keywords"
      "keywords" "Company name or keywords to search for";
    tool_schema "get_stock_price"
      "Get the current stock price and related information for a given symbol"
      "symbol" "The stock symbol to look up"].

Definition available_functions : gmap string tool_function :=
  {[ "search_stock_symbol" := call_with_kwargs "keywords" (search_stock_symbol P);
     "get_stock_price" := call_with_kwargs "symbol" (get_stock_price P) ]}.

Definition newline : string := String (Ascii.ascii_of_nat 10) EmptyString.

(** The three rounds of [get_stock_info] (lines 241-267), on the list
    that its first lines have built. *)
Definition conversation_rounds : M session unit :=
  (* First assistant call: search for stock symbol *)
  let! messages := read_messages in
  let! initial_response := on_world (get_model_response P messages tools) in
  let! _ := append_message initial_response in
  let! _ := process_tool_calls initial_response available_functions in
  (* Second assistant call: incorporate tool results into conversation *)
  let! messages := read_messages in
  let! final_response := on_world (get_model_response P messages tools) in
  let! _ := append_message final_response in
  let! user_choice :=
    on_world (input (newline +:+ newline +:+ "Enter the number of your chosen symbol: ")) in
  let! _ := append_message
              (plain_message "user" ("I choose option " +:+ user_choice +:+ ".")) in
  (* Third assistant call: process user choice and fetch further details *)
  let! messages := read_messages in
  let! final_choice_response := on_world (get_model_response P messages tools) in
  let! _ := append_message final_choice_response in
  match tool_calls final_choice_response with
  | Some (_ :: _) =>
      let! _ := process_tool_calls final_choice_response available_functions in
      let! messages := read_messages in
      let! final_response := on_world (get_model_response P messages tools) in
      ret tt
  | _ => ret tt
  end.

Definition initial_messages (stock_query : string) : list message :=
  [plain_message "system" system_prompt;
   plain_message "user" ("What's the current stock price for " +:+ stock_query +:+ "?")].

Definition get_stock_info : M session unit :=
  let! stock_query :=
    on_world (input "Enter the stock or company name you want to search for: ") in
  let! _ := assign_messages (initial_messages stock_query) in
  conversation_rounds.

End Conversation.

(** The session in which [get_stock_info] starts: no list yet. *)
Definition new_session (w : world) : session := {| messages := []; outside := w |}.

(** ** Vocabulary of the statements *)

Definition quoted (s : string) : string := dquote +:+ s +:+ dquote.

(** The serialization of an empty sequence. *)
Definition empty_sequence_text : string := "[]".

(** The error-marker payload of [get_stock_price]. *)
Definition error_marker_text : string :=
  "{" +:+ quoted "error" +:+ ": " +:+ quoted "No price data available" +:+ "}".

(** The quote record whose four fields are all null. *)
Definition null_quote_text : string :=
  "{" +:+ quoted "symbol" +:+ ": null, " +:+ quoted "price" +:+ ": null, "
  +:+ quoted "change" +:+ ": null, " +:+ quoted "change_percent" +:+ ": null}".

(** The quote record built from the provider's quote object [quote]: a
    field the provider left out is null. *)
Definition quote_record (quote : list (string * json)) : json :=
  JDict [("symbol", default JNull (assoc "01. symbol" quote));
         ("price", default JNull (assoc "05. price" quote));
         ("change", default JNull (assoc "09. change" quote));
         ("change_percent", default JNull (assoc "10. change percent" quote))].

(** The text a fragment carries, and the tool-call descriptors it
    carries: those of the delta of its first choice. *)
Definition fragment_text (c : chunk) : string :=
  match choices c with
  | d :: _ => default "" (delta_content d)
  | [] => ""
  end.

Definition fragment_tool_calls (c : chunk) : list tool_call :=
  match choices c with
  | d :: _ => default [] (delta_tool_calls d)
  | [] => []
  end.

(** Texts joined in order. *)
Definition join_text (texts : list string) : string :=
  foldr String.append "" texts.

(** The world after [texts] were written to the terminal. *)
Definition wrote (texts : list string) (w : world) : world :=
  {| stdin := stdin w; stdout := stdout w ++ texts;
     http_log := http_log w; chat_log := chat_log w |}.

Definition nonempty_text (s : string) : bool :=
  match s with
  | EmptyString => false
  | String _ _ => true
  end.

(** The exception that the argument text of a request raises when it
    does not decode to a key-value mapping: [json.loads] fails, or what
    it returns cannot be unpacked as keyword arguments. *)
Definition decode_error `{Builtins} (arguments : string) : option exn :=
  match json_loads arguments with
  | None => Some JSONDecodeError
  | Some (JDict _) => None
  | Some _ => Some TypeError
  end.

(** An assistant message that carries the requests [calls]. *)
Definition requesting (calls : list tool_call) (m : message) : Prop :=
  tool_calls m = Some calls.

(** An operation on the session that leaves the message list as it is,
    or only appends to it. *)
Definition keeps_messages {A : Type} (m : M session A) : Prop :=
  forall s, messages (m s).2 = messages s.

Definition append_only {A : Type} (m : M session A) : Prop :=
  forall s, messages s `prefix_of` messages (m s).2.

(** Each list sent to the model extends the lists sent before it. *)
Definition sent_in_order (requests : list chat_request) : Prop :=
  StronglySorted
    (fun q q' => request_messages q `prefix_of` request_messages q') requests.

(** From [s] to [s'] the message list has only grown, and so has the
    list seen by the model: every chat request issued in between carries
    an extension of the list of [s] that the list of [s'] extends, and
    the requests carry longer and longer lists. *)
Definition history_grows (s s' : session) : Prop :=
  messages s `prefix_of` messages s' /\
  exists requests,
    chat_log (outside s') = chat_log (outside s) ++ requests /\
    Forall (fun q => messages s `prefix_of` request_messages q /\
                     request_messages q `prefix_of` messages s') requests /\
    sent_in_order requests.

(** A computation on the world that issues no chat request. *)
Definition quiet {A : Type} (m : M world A) : Prop :=
  forall w, chat_log (m w).2 = chat_log w.

(** The chat requests issued by a whole session, oldest first. *)
Definition session_requests `{Builtins} (P : provider) (w : world) : list chat_request :=
  drop (length (chat_log w)) (chat_log (outside (get_stock_info P (new_session w)).2)).

(** A tool-role message that answers the request id [call_id]. *)
Definition answers (call_id : string) (m : message) : bool :=
  String.eqb (role m) "tool" && bool_decide (tool_call_id m = Some call_id).



(** The tool-role message appended for the request [tc]. *)
Definition reply_to (tc : tool_call) (m : message) : Prop :=
  role m = "tool" /\ tool_call_id m = Some (id tc) /\ tool_calls m = None.

(** The requests that name a function of the registry. *)
Definition known_calls (registry : gmap string tool_function)
    (calls : list tool_call) : list tool_call :=
  filter (fun tc => is_Some (registry !! name (function tc))) calls.

(** Between the chat request [q] and the next one [q'], the list gained
    the assistant's response and then one tool-role message per request
    of that response that names a function of the registry, in the order
    of the requests and with their ids. *)
Definition dispatched_between (registry : gmap string tool_function)
    (q q' : chat_request) : Prop :=
  exists response replies,
    request_messages q' = request_messages q ++ response :: replies /\
    role response = "assistant" /\
    Forall2 reply_to (known_calls registry (default [] (tool_calls response))) replies.

(** Between the chat request [q] and the next one [q'], the list gained
    the assistant's response and the user's choice, and nothing else. *)
Definition user_turn (q q' : chat_request) : Prop :=
  exists response choice,
    request_messages q' = request_messages q ++ [response; choice] /\
    role response = "assistant" /\ role choice = "user" /\ tool_calls choice = None.

(** The chat requests [requests] of a conversation that starts from the
    list [msgs]: the first carries [msgs]; the third follows the second
    by a user turn; every other request follows its predecessor by a
    dispatch. *)
Definition conversation_chain (registry : gmap string tool_function)
    (msgs : list message) (requests : list chat_request) : Prop :=
  (forall q, requests !! 0 = Some q -> request_messages q = msgs) /\
  (forall i q q',
     requests !! i = Some q -> requests !! S i = Some q' ->
     (i <> 1 -> dispatched_between registry q q') /\ (i = 1 -> user_turn q q')).

(** A float that is not NaN, placed on a line: the sign class first, then
    exponent and mantissa (negated below zero). *)
Definition float_rank (x : spec_float) : Z * Z * Z :=
  match x with
  | S754_infinity true => (-2, 0, 0)
  | S754_finite true m e => (-1, - e, - Z.pos m)
  | S754_zero _ | S754_nan => (0, 0, 0)
  | S754_finite false m e => (1, e, Z.pos m)
  | S754_infinity false => (2, 0, 0)
  end%Z.

Definition rank_lt (a b : Z * Z * Z) : Prop :=
  (a.1.1 < b.1.1 \/
   (a.1.1 = b.1.1 /\ (a.1.2 < b.1.2 \/ (a.1.2 = b.1.2 /\ a.2 < b.2))))%Z.

(** No element of [l] is below an earlier one. *)
Definition ascending {A : Type} (lt : A -> A -> bool) (l : list A) : Prop :=
  StronglySorted (fun a b => lt b a = false) l.

Section MatchVocabulary.
Context `{Builtins}.

(** The value of the field [k] of a match entry (null when missing). *)
Definition match_field (k : string) (m : json) : json :=
  match m with
  | JDict fields => default JNull (assoc k fields)
  | _ => JNull
  end.

Definition has_field (k : string) (m : json) : Prop :=
  match m with
  | JDict fields => is_Some (assoc k fields)
  | _ => False
  end.

(** The score of a match entry as a float; NaN when the entry has none
    that converts. *)
Definition entry_score (m : json) : spec_float :=
  match py_float (match_field "9. matchScore" m) with
  | Ok f => f
  | Raise _ => S754_nan
  end.

(** The SymbolMatch record of a match entry. *)
Definition symbol_match (m : json) : json :=
  JDict [("symbol", match_field "1. symbol" m);
         ("name", match_field "2. name" m);
         ("region", match_field "4. region" m);
         ("score", JFloat (entry_score m))].

(** A match entry as the provider sends it: an object with the symbol,
    name, region and match-score fields, whose score converts to a float
    that is not NaN. *)
Definition provider_entry (m : json) : Prop :=
  has_field "1. symbol" m /\ has_field "2. name" m /\
  has_field "4. region" m /\ has_field "9. matchScore" m /\
  float_is_nan (entry_score m) = false.

(** Every entry scores at most what each entry before it scores. *)
Definition by_score_descending (l : list json) : Prop :=
  forall i j a b,
    i < j -> l !! i = Some a -> l !! j = Some b ->
    SFleb (entry_score b) (entry_score a) = true.

Definition same_score (f : spec_float) (m : json) : bool :=
  float_same f (entry_score m).

(** The entries of equal score are in the same order in [ordered] as in
    [entries]. *)
Definition keeps_provider_order (ordered entries : list json) : Prop :=
  forall f, float_is_nan f = false ->
            filter (same_score f) ordered = filter (same_score f) entries.

(** The provider fields that [search_stock_symbol] reads. *)
Definition provider_fields : list string :=
  ["1. symbol"; "2. name"; "4. region"; "9. matchScore"].

End MatchVocabulary.

Section IncompleteVocabulary.
Context `{Builtins}.

(** A match entry that the sort step accepts: an object whose match
    score, when it has one, converts to a float. *)
Definition sortable_entry (m : json) : Prop :=
  exists fields,
    m = JDict fields /\
    forall raw, assoc "9. matchScore" fields = Some raw -> exists f, py_float raw = Ok f.

(** A match entry that lacks one of the provider fields. *)
Definition incomplete_entry (m : json) : Prop :=
  exists k, k ∈ provider_fields /\ ~ has_field k m.

End IncompleteVocabulary.

(** Neither of [x] and [y] is below the other. *)
Definition incomparable {A : Type} (lt : A -> A -> bool) (x y : A) : bool :=
  negb (lt x y) && negb (lt y x).

(** ** Start-up (lines 12-26)

    [environ] is the process environment after [load_dotenv()].
    [os.getenv] returns [None] for a variable that is not set, and
    [not v] holds for [None] and for the empty string. *)



(** A computation on the world that leaves the part [f] of it alone. *)
Definition preserves {A X : Type} (f : world -> X) (m : M world A) : Prop :=
  forall w, f (m w).2 = f w.

(** The parameter that the function registered under a name declares. *)
Definition parameter_of (function_name : string) : option string :=
  if String.eqb function_name "search_stock_symbol" then Some "keywords"
  else if String.eqb function_name "get_stock_price" then Some "symbol"
  else None.

(** The tool-role message that [process_tool_calls] appends. *)
Definition tool_message (call_id text : string) : message :=
  {| role := "tool"; content := text; tool_calls := None; tool_call_id := Some call_id |}.

(** A JSON value that is neither an object, a list nor a string. *)
Definition scalar (v : json) : Prop :=
  match v with
  | JNull | JBool _ | JInt _ | JFloat _ => True
  | _ => False
  end.

(** The world after the URLs [urls] were fetched, in order. *)
Definition fetched_all (urls : list string) (w : world) : world :=
  {| stdin := stdin w; stdout := stdout w;
     http_log := http_log w ++ urls; chat_log := chat_log w |}.

(** Run from [s], the computation [m] issues between [lo] and [hi] chat
    requests, each with the tool schema [schema]. *)
Definition issues {A : Type} (schema : json) (lo hi : nat) (m : M session A)
    (s : session) : Prop :=
  exists requests,
    chat_log (outside (m s).2) = chat_log (outside s) ++ requests /\
    lo <= length requests <= hi /\
    Forall (fun q => request_tools q = schema) requests.

(** The response carries at least one tool request. *)
Definition has_calls (response : message) : bool :=
  match tool_calls response with
  | Some (_ :: _) => true
  | _ => false
  end.

(** The message that records the user's choice. *)
Definition choice_message (user_choice : string) : message :=
  plain_message "user" ("I choose option " +:+ user_choice +:+ ".").

(** The first prompt of a session. *)
Definition query_prompt : string :=
  "Enter the stock or company name you want to search for: ".

(** ** Sample data

    A table of the text conversions that the examples below use; on these
    arguments it agrees with CPython. *)

Definition float_1_0 : spec_float := S754_finite false 4503599627370496 (-52).
Definition float_0_6 : spec_float := S754_finite false 5404319552844595 (-53).
Definition float_0_5 : spec_float := S754_finite false 4503599627370496 (-53).

Definition keywords_apple : string :=
  "{" +:+ quoted "keywords" +:+ ": " +:+ quoted "Apple" +:+ "}".
Definition symbol_aapl : string :=
  "{" +:+ quoted "symbol" +:+ ": " +:+ quoted "AAPL" +:+ "}".

#[local] Instance sample_builtins : Builtins := {|
  float_of_str s :=
    if String.eqb s "1.0000" then Some float_1_0
    else if String.eqb s "0.6000" then Some float_0_6
    else if String.eqb s "0.5000" then Some float_0_5
    else if String.eqb s "nan" then Some S754_nan
    else None;
  float_repr f :=
    match f with
    | S754_finite false 4503599627370496 (-52) => "1.0"
    | S754_finite false 5404319552844595 (-53) => "0.6"
    | S754_finite false 4503599627370496 (-53) => "0.5"
    | S754_zero false => "0.0"
    | _ => "?"
    end;
  json_loads s :=
    if String.eqb s keywords_apple then Some (JDict [("keywords", JStr "Apple")])
    else if String.eqb s symbol_aapl then Some (JDict [("symbol", JStr "AAPL")])
    else if String.eqb s "{}" then Some (JDict [])
    else if String.eqb s "[1]" then Some (JList [JInt 1])
    else None;
  str_of_value v :=
    match v with
    | JNull => "None"
    | JBool true => "True"
    | JBool false => "False"
    | JInt z => pretty z
    | _ => "?"
    end;
|}.

Definition best_match (symbol name region score : string) : json :=
  JDict [("1. symbol", JStr symbol); ("2. name", JStr name);
         ("3. type", JStr "Equity"); ("4. region", JStr region);
         ("9. matchScore", JStr score)].

(** A search answer in the provider's order, with a tie at 0.6. *)
Definition apple_matches : json :=
  JDict [("bestMatches", JList [
    best_match "APLE" "Apple Hospitality REIT Inc" "United States" "0.6000";
    best_match "AAPL" "Apple Inc" "United States" "1.0000";
    best_match "APC.FRK" "Apple Inc" "Frankfurt" "0.6000";
    best_match "AAPL34.SAO" "Apple Inc" "Brazil/Sao Paolo" "0.5000"])].

Definition aapl_quote : json :=
  JDict [("Global Quote", JDict [
    ("01. symbol", JStr "AAPL"); ("02. open", JStr "149.00");
    ("05. price", JStr "150.00"); ("09. change", JStr "1.00");
    ("10. change percent", JStr "0.6711%")])].

Definition text_chunk (text : string) : chunk :=
  {| choices := [{| delta_content := Some text; delta_tool_calls := None |}] |}.

Definition call_chunk (calls : list tool_call) : chunk :=
  {| choices := [{| delta_content := None; delta_tool_calls := Some calls |}] |}.

Definition a_call (id name arguments : string) : tool_call :=
  {| id := id; function := {| name := name; arguments := arguments |} |}.

Definition ended (fragments : list chunk) : result stream :=
  Ok {| fragments := fragments; failure := None |}.

(** The session of the specification's first scenario: the model asks for
    the search, lists the symbols, and after the user's choice asks for
    the quote and narrates it. *)
Definition apple_provider : provider := {|
  alphavantage_api_key := "demo";
  http_get_json _ url :=
    if String.eqb url
         "https://www.alphavantage.co/query?function=SYMBOL_SEARCH&keywords=Apple&apikey=demo"
    then Ok apple_matches
    else if String.eqb url
         "https://www.alphavantage.co/query?function=GLOBAL_QUOTE&symbol=AAPL&apikey=demo"
    then Ok aapl_quote
    else Raise (ExternalError "connection refused");
  chat_completions_create log _ :=
    match length log with
    | 0 => ended [call_chunk [a_call "call_1" "search_stock_symbol" keywords_apple]]
    | 1 => ended [text_chunk "1. AAPL"; text_chunk " 2. APLE"]
    | 2 => ended [call_chunk [a_call "call_2" "get_stock_price" symbol_aapl]]
    | _ => ended [text_chunk "AAPL trades at "; text_chunk "150.00"]
    end;
|}.

Definition apple_world : world :=
  {| stdin := ["Apple"; "1"]; stdout := []; http_log := []; chat_log := [] |}.

(** A session in which the model asks for a tool that does not exist in
    the first round, and for a quote in the second round. *)
Definition stray_provider : provider := {|
  alphavantage_api_key := "demo";
  http_get_json _ _ := Ok aapl_quote;
  chat_completions_create log _ :=
    match length log with
    | 0 => ended [call_chunk [a_call "call_1" "get_weather" "{}"]]
    | 1 => ended [call_chunk [a_call "call_2" "get_stock_price" symbol_aapl]]
    | _ => ended [text_chunk "done"]
    end;
|}.

(** A provider that knows no symbol: the search finds nothing and the
    quote object is empty. *)
Definition unknown_provider : provider := {|
  alphavantage_api_key := "demo";
  http_get_json _ url :=
    if String.prefix "https://www.alphavantage.co/query?function=SYMBOL_SEARCH" url
    then Ok (JDict [("bestMatches", JList [])])
    else Ok (JDict [("Global Quote", JDict [])]);
  chat_completions_create _ _ := ended [];
|}.

(** A provider that answers every request with its rate-limit notice. *)
Definition limited_provider : provider := {|
  alphavantage_api_key := "demo";
  http_get_json _ _ := Ok (JDict [("Information", JStr "rate limit reached")]);
  chat_completions_create _ _ := ended [];
|}.

(** A search answer whose second entry has no match score. *)
Definition unscored_match : json :=
  JDict [("1. symbol", JStr "APLE"); ("2. name", JStr "Apple Hospitality REIT Inc");
         ("4. region", JStr "United States")].

Definition partial_provider : provider := {|
  alphavantage_api_key := "demo";
  http_get_json _ _ :=
    Ok (JDict [("bestMatches", JList [
          best_match "AAPL" "Apple Inc" "United States" "1.0000"; unscored_match])]);
  chat_completions_create _ _ := ended [];
|}.

(** A provider whose every fetch returns [data]. *)
Definition constant_provider (data : json) : provider := {|
  alphavantage_api_key := "demo";
  http_get_json _ _ := Ok data;
  chat_completions_create _ _ := ended [];
|}.

(** A provider that cannot be reached. *)
Definition offline_provider : provider := {|
  alphavantage_api_key := "demo";
  http_get_json _ _ := Raise (ExternalError "connection refused");
  chat_completions_create _ _ := Raise (ExternalError "connection refused");
|}.

(** A search answer whose second entry has a score that is no number. *)
Definition unrated_matches : json :=
  JDict [("bestMatches", JList [
    best_match "AAPL" "Apple Inc" "United States" "1.0000";
    best_match "APLE" "Apple Hospitality REIT Inc" "United States" "n/a"])].

(** * Properties *)

(** ** Quote Gateway *)

Lemma Ok_inj {A : Type} (a b : A) : Ok a = Ok b -> a = b.
Proof. intros Heq. congruence. Qed.

Section GatewayFacts.
Context `{Builtins} (P : provider).

Lemma search_stock_symbol_run keywords w :
  search_stock_symbol P keywords w =
  (let? data := http_get_json P (http_log w) (search_url P keywords) in
   search_stock_symbol_result data,
   fetched (search_url P keywords) w).
Proof.
  unfold search_stock_symbol, bind, requests_get_json, lift.
  destruct (http_get_json P (http_log w) (search_url P keywords)); reflexivity.
Qed.

Lemma get_stock_price_run symbol w :
  get_stock_price P symbol w =
  (let? data := http_get_json P (http_log w) (quote_url P symbol) in
   get_stock_price_result data,
   fetched (quote_url P symbol) w).
Proof.
  unfold get_stock_price, bind, requests_get_json, lift.
  destruct (http_get_json P (http_log w) (quote_url P symbol)); reflexivity.
Qed.

Lemma py_contains_dict k fields :
  py_contains k (JDict fields) = Ok (bool_decide (is_Some (assoc k fields))).
Proof. reflexivity. Qed.

Lemma error_marker_dumps : json_dumps no_price_data = error_marker_text.
Proof. reflexivity. Qed.

Lemma get_stock_price_result_absent fields :
  assoc "Global Quote" fields = None ->
  get_stock_price_result (JDict fields) = Ok error_marker_text.
Proof.
  intros Habs. unfold get_stock_price_result.
  rewrite py_contains_dict, Habs. reflexivity.
Qed.

Lemma get_stock_price_result_present fields quote :
  assoc "Global Quote" fields = Some (JDict quote) ->
  get_stock_price_result (JDict fields) = Ok (json_dumps (quote_record quote)).
Proof.
  intros Hq. unfold get_stock_price_result.
  rewrite py_contains_dict, Hq. cbn.
  rewrite Hq. reflexivity.
Qed.

Lemma get_stock_price_result_not_dict fields v :
  assoc "Global Quote" fields = Some v ->
  (forall quote, v <> JDict quote) ->
  get_stock_price_result (JDict fields) = Raise AttributeError.
Proof.
  intros Hq Hv. unfold get_stock_price_result.
  rewrite py_contains_dict, Hq. cbn.
  rewrite Hq. destruct v; try reflexivity. destruct (Hv fields0). reflexivity.
Qed.

End GatewayFacts.

Section Gateway.
Context `{Builtins} (P : provider).

(** C3. When the search response has no match list, or an empty one,
    [search_stock_symbol] returns the serialization of the empty sequence
    and does not raise. *)
Theorem search_without_matches_returns_empty_sequence keywords w fields :
  http_get_json P (http_log w) (search_url P keywords) = Ok (JDict fields) ->
  assoc "bestMatches" fields = None \/ assoc "bestMatches" fields = Some (JList []) ->
  search_stock_symbol P keywords w
  = (Ok empty_sequence_text, fetched (search_url P keywords) w).
Proof.
  intros Hget Hnone. rewrite search_stock_symbol_run, Hget. f_equal.
  change (search_stock_symbol_result (JDict fields) = Ok empty_sequence_text).
  unfold search_stock_symbol_result. rewrite py_contains_dict.
  destruct Hnone as [-> | Hempty]; [reflexivity|].
  rewrite Hempty. cbn. rewrite Hempty. reflexivity.
Qed.

(** C4. When the quote response lacks the quote object,
    [get_stock_price] returns exactly the error-marker payload and does
    not raise. *)
Theorem missing_quote_object_returns_error_marker symbol w fields :
  http_get_json P (http_log w) (quote_url P symbol) = Ok (JDict fields) ->
  assoc "Global Quote" fields = None ->
  get_stock_price P symbol w = (Ok error_marker_text, fetched (quote_url P symbol) w).
Proof.
  intros Hget Habs. rewrite get_stock_price_run, Hget. f_equal.
  apply get_stock_price_result_absent, Habs.
Qed.

Lemma quote_record_is_not_error_marker quote :
  json_dumps (quote_record quote) <> error_marker_text.
Proof.
  intros Heq. apply (f_equal (String.get 2)) in Heq.
  vm_compute in Heq. discriminate.
Qed.

Lemma quote_record_all_null quote :
  assoc "01. symbol" quote = None ->
  assoc "05. price" quote = None ->
  assoc "09. change" quote = None ->
  assoc "10. change percent" quote = None ->
  json_dumps (quote_record quote) = null_quote_text.
Proof. unfold quote_record. intros -> -> -> ->. reflexivity. Qed.

(** C10. The error marker is returned exactly when the key
    ['Global Quote'] is absent; when the key holds an object, the
    outcome is the quote record in which each subfield the object lacks
    is null (all four for an empty object), never the error marker. *)
Theorem error_marker_only_when_quote_key_absent symbol w fields :
  http_get_json P (http_log w) (quote_url P symbol) = Ok (JDict fields) ->
  ((get_stock_price P symbol w).1 = Ok error_marker_text
   <-> assoc "Global Quote" fields = None) /\
  (forall quote, assoc "Global Quote" fields = Some (JDict quote) ->
     (get_stock_price P symbol w).1 = Ok (json_dumps (quote_record quote)) /\
     json_dumps (quote_record quote) <> error_marker_text /\
     (assoc "01. symbol" quote = None -> assoc "05. price" quote = None ->
      assoc "09. change" quote = None -> assoc "10. change percent" quote = None ->
      (get_stock_price P symbol w).1 = Ok null_quote_text)).
Proof.
  intros Hget. rewrite get_stock_price_run, Hget.
  change ((let? data := Ok (JDict fields) in get_stock_price_result data,
           fetched (quote_url P symbol) w).1)
    with (get_stock_price_result (JDict fields)).
  split.
  - split.
    + intros Hres. destruct (assoc "Global Quote" fields) as [v|] eqn:Hq; [|reflexivity].
      exfalso. destruct v;
        try (rewrite (get_stock_price_result_not_dict fields _ Hq) in Hres;
             [discriminate | intros ?; discriminate]).
      rewrite (get_stock_price_result_present fields _ Hq) in Hres.
      exact (quote_record_is_not_error_marker _ (Ok_inj _ _ Hres)).
    + apply get_stock_price_result_absent.
  - intros quote Hq. rewrite (get_stock_price_result_present fields quote Hq).
    split; [reflexivity|]. split; [apply quote_record_is_not_error_marker|].
    intros. f_equal. apply quote_record_all_null; assumption.
Qed.

End Gateway.

Lemma search_without_matches_witness :
  search_stock_symbol unknown_provider (JStr "Zzzznotreal") apple_world
  = (Ok "[]", fetched (search_url unknown_provider (JStr "Zzzznotreal")) apple_world)
  /\ search_stock_symbol limited_provider (JStr "Zzzznotreal") apple_world
  = (Ok "[]", fetched (search_url limited_provider (JStr "Zzzznotreal")) apple_world).
Proof.
  split.
  - apply (search_without_matches_returns_empty_sequence unknown_provider
             (JStr "Zzzznotreal") apple_world [("bestMatches", JList [])]).
    + reflexivity.
    + right. reflexivity.
  - apply (search_without_matches_returns_empty_sequence limited_provider
             (JStr "Zzzznotreal") apple_world
             [("Information", JStr "rate limit reached")]).
    + reflexivity.
    + left. reflexivity.
Defined.

Lemma missing_quote_object_witness :
  (get_stock_price limited_provider (JStr "AAPL") apple_world).1 = Ok error_marker_text.
Proof.
  rewrite (missing_quote_object_returns_error_marker limited_provider
             (JStr "AAPL") apple_world [("Information", JStr "rate limit reached")]);
    reflexivity.
Defined.

Lemma error_marker_only_when_quote_key_absent_witness :
  (get_stock_price unknown_provider (JStr "ZZZZ") apple_world).1 = Ok null_quote_text
  /\ (get_stock_price unknown_provider (JStr "ZZZZ") apple_world).1 <> Ok error_marker_text.
Proof.
  destruct (error_marker_only_when_quote_key_absent unknown_provider (JStr "ZZZZ")
              apple_world [("Global Quote", JDict [])] eq_refl) as [Hiff Hrec].
  destruct (Hrec [] eq_refl) as (_ & _ & Hnull). split.
  - apply Hnull; reflexivity.
  - intros Herr. apply Hiff in Herr. discriminate.
Defined.

(** ** Stream Accumulator *)

Lemma string_app_cons a s t : String a s +:+ t = String a (s +:+ t).
Proof. reflexivity. Qed.

Lemma string_app_nil_r s : s +:+ "" = s.
Proof. induction s as [|a s IH]; [reflexivity|]. rewrite string_app_cons, IH. reflexivity. Qed.

Lemma string_app_assoc s t u : (s +:+ t) +:+ u = s +:+ (t +:+ u).
Proof.
  induction s as [|a s IH]; [reflexivity|].
  rewrite !string_app_cons, IH. reflexivity.
Qed.

Lemma wrote_nil w : wrote [] w = w.
Proof. destruct w. unfold wrote. cbn. rewrite app_nil_r. reflexivity. Qed.

Lemma wrote_wrote a b w : wrote b (wrote a w) = wrote (a ++ b) w.
Proof. unfold wrote. cbn. rewrite app_assoc. reflexivity. Qed.

Section StreamAccumulator.
Context `{Builtins} (P : provider).

Lemma process_chunk_spec full_text calls c w :
  choices c <> [] ->
  process_chunk (full_text, calls) c w
  = (Ok (full_text +:+ fragment_text c, calls ++ fragment_tool_calls c),
     wrote (filter nonempty_text [fragment_text c]) w).
Proof.
  intros Hc. unfold process_chunk, fragment_text, fragment_tool_calls.
  destruct (choices c) as [|d ds]; [congruence|].
  unfold bind, ret, print.
  destruct (delta_content d) as [[|a text]|]; cbn;
    destruct (delta_tool_calls d) as [[|tc tcs]|]; cbn;
    rewrite ?string_app_nil_r, ?app_nil_r, ?wrote_nil; reflexivity.
Qed.

Lemma process_chunks_spec chunks : forall full_text calls w,
  Forall (fun c => choices c <> []) chunks ->
  process_chunks (full_text, calls) chunks w
  = (Ok (full_text +:+ join_text (fragment_text <$> chunks),
         calls ++ concat (fragment_tool_calls <$> chunks)),
     wrote (filter nonempty_text (fragment_text <$> chunks)) w).
Proof.
  induction chunks as [|c chunks IH]; intros full_text calls w Hall.
  - cbn. unfold ret. rewrite string_app_nil_r, app_nil_r, wrote_nil. reflexivity.
  - inversion Hall as [|? ? Hc Hrest]; subst.
    cbn [process_chunks]. unfold bind at 1.
    rewrite (process_chunk_spec _ _ _ _ Hc).
    rewrite (IH _ _ _ Hrest), wrote_wrote.
    cbn [fmap list_fmap join_text foldr concat].
    rewrite string_app_assoc, <- app_assoc, <- filter_app. reflexivity.
Qed.

(** C5. On a stream whose fragments each have a first choice and that
    ends without a transport failure, [process_stream] returns the
    assistant message whose content is the concatenation, in arrival
    order, of the fragments' texts and whose tool calls are the
    concatenation, in arrival order, of the fragments' descriptors; it
    writes the non-empty texts to the terminal as they arrive. *)
Theorem process_stream_concatenates_fragments (response : stream) (w : world) :
  Forall (fun c => choices c <> []) (fragments response) ->
  failure response = None ->
  process_stream response w
  = (Ok {| role := "assistant";
           content := join_text (fragment_text <$> fragments response);
           tool_calls := Some (concat (fragment_tool_calls <$> fragments response));
           tool_call_id := None |},
     wrote (filter nonempty_text (fragment_text <$> fragments response)) w).
Proof.
  intros Hall Hend. unfold process_stream. unfold bind at 1.
  rewrite (process_chunks_spec _ _ _ _ Hall), Hend. reflexivity.
Qed.

End StreamAccumulator.

Lemma process_stream_concatenates_fragments_witness :
  process_stream
    {| fragments := [text_chunk "AAPL trades at "; call_chunk [a_call "c1" "f" "{}"];
                     text_chunk ""; text_chunk "150.00";
                     call_chunk [a_call "c2" "g" "{}"; a_call "c3" "h" "[1]"]];
       failure := None |} apple_world
  = (Ok {| role := "assistant"; content := "AAPL trades at 150.00";
           tool_calls := Some [a_call "c1" "f" "{}"; a_call "c2" "g" "{}";
                               a_call "c3" "h" "[1]"];
           tool_call_id := None |},
     wrote ["AAPL trades at "; "150.00"] apple_world).
Proof.
  apply (process_stream_concatenates_fragments
           {| fragments := [text_chunk "AAPL trades at "; call_chunk [a_call "c1" "f" "{}"];
                            text_chunk ""; text_chunk "150.00";
                            call_chunk [a_call "c2" "g" "{}"; a_call "c3" "h" "[1]"]];
              failure := None |} apple_world).
  - repeat constructor; discriminate.
  - reflexivity.
Defined.

(** ** Tool Dispatcher *)

Lemma for_each_app {S A : Type} (l1 l2 : list A) (body : A -> M S unit) (s : S) :
  for_each (l1 ++ l2) body s
  = (let! _ := for_each l1 body in for_each l2 body) s.
Proof.
  revert s. induction l1 as [|x l1 IH]; intros s.
  - reflexivity.
  - cbn [app for_each]. unfold bind.
    destruct (body x s) as [[[]|e] s1]; [|reflexivity].
    rewrite IH. reflexivity.
Qed.

Section Dispatcher.
Context `{Builtins}.

(** C6. A request whose function name is not in the registry appends
    nothing and raises nothing, and the dispatch of a response behaves as
    if the request were not in it: the same messages are appended, with
    the same effects and the same outcome. *)
Theorem unknown_tool_is_skipped (registry : gmap string tool_function) (tc : tool_call) :
  registry !! name (function tc) = None ->
  (forall s, process_tool_call registry tc s = (Ok tt, s)) /\
  (forall response response' before after s,
     requesting (before ++ tc :: after) response ->
     requesting (before ++ after) response' ->
     process_tool_calls response registry s = process_tool_calls response' registry s).
Proof.
  intros Hnone.
  assert (Hskip : forall s, process_tool_call registry tc s = (Ok tt, s)).
  { intros s. unfold process_tool_call. cbv zeta. rewrite Hnone. reflexivity. }
  split; [exact Hskip|].
  intros response response' before after s Hreq Hreq'.
  unfold process_tool_calls, requesting in *. rewrite Hreq, Hreq'. simpl.
  rewrite !for_each_app. unfold bind.
  destruct (for_each before (process_tool_call registry) s) as [[[]|e] s1]; [|reflexivity].
  cbn [for_each]. unfold bind. rewrite Hskip. reflexivity.
Qed.

(** C7. A request whose function is in the registry but whose argument
    text does not decode to a key-value mapping raises
    ([JSONDecodeError], or [TypeError] when the text decodes to something
    else) and appends nothing; the dispatch of a response that contains
    it raises, leaving the list as the requests before it left it. *)
Theorem undecodable_arguments_raise (registry : gmap string tool_function)
    (tc : tool_call) (f : tool_function) (e : exn) :
  registry !! name (function tc) = Some f ->
  decode_error (arguments (function tc)) = Some e ->
  (forall s, process_tool_call registry tc s = (Raise e, s)) /\
  (forall response before after s,
     requesting (before ++ tc :: after) response ->
     raises (process_tool_calls response registry s).1 /\
     (process_tool_calls response registry s).2
     = (for_each before (process_tool_call registry) s).2).
Proof.
  intros Hsome Hdec.
  assert (Hraise : forall s, process_tool_call registry tc s = (Raise e, s)).
  { intros s. unfold process_tool_call, decode_error in *. cbv zeta. rewrite Hsome.
    unfold bind, lift.
    destruct (json_loads (arguments (function tc))) as [v|]; [|congruence].
    destruct v; congruence. }
  split; [exact Hraise|].
  intros response before after s Hreq.
  unfold process_tool_calls, requesting in *. rewrite Hreq. simpl.
  rewrite for_each_app. unfold bind.
  destruct (for_each before (process_tool_call registry) s) as [[[]|e'] s1].
  - cbn [for_each]. unfold bind. rewrite Hraise. split; [exact I|reflexivity].
  - split; [exact I|reflexivity].
Qed.

End Dispatcher.

Lemma unknown_tool_is_skipped_witness :
  process_tool_calls
    {| role := "assistant"; content := "";
       tool_calls := Some [a_call "call_0" "get_weather" "{}";
                           a_call "call_1" "search_stock_symbol" keywords_apple];
       tool_call_id := None |}
    (available_functions apple_provider) (new_session apple_world)
  = process_tool_calls
      {| role := "assistant"; content := "";
         tool_calls := Some [a_call "call_1" "search_stock_symbol" keywords_apple];
         tool_call_id := None |}
      (available_functions apple_provider) (new_session apple_world).
Proof.
  apply (proj2 (unknown_tool_is_skipped (available_functions apple_provider)
                  (a_call "call_0" "get_weather" "{}") eq_refl)
           _ _ [] [a_call "call_1" "search_stock_symbol" keywords_apple]);
    reflexivity.
Defined.

Lemma undecodable_arguments_raise_witness :
  process_tool_call (available_functions apple_provider)
    (a_call "call_1" "get_stock_price" "[1]") (new_session apple_world)
  = (Raise TypeError, new_session apple_world)
  /\ process_tool_call (available_functions apple_provider)
       (a_call "call_2" "get_stock_price" "{") (new_session apple_world)
     = (Raise JSONDecodeError, new_session apple_world).
Proof.
  split.
  - destruct (undecodable_arguments_raise (available_functions apple_provider)
                (a_call "call_1" "get_stock_price" "[1]")
                (call_with_kwargs "symbol" (get_stock_price apple_provider))
                TypeError) as [Hone _]; [reflexivity | reflexivity | apply Hone].
  - destruct (undecodable_arguments_raise (available_functions apple_provider)
                (a_call "call_2" "get_stock_price" "{")
                (call_with_kwargs "symbol" (get_stock_price apple_provider))
                JSONDecodeError) as [Hone _]; [reflexivity | reflexivity | apply Hone].
Defined.

(** ** The message list only grows *)

Lemma bind_state {S A B : Type} (m : M S A) (k : A -> M S B) (s : S) :
  (bind m k s).2 = match m s with
                  | (Ok a, s1) => (k a s1).2
                  | (Raise _, s1) => s1
                  end.
Proof. unfold bind. destruct (m s) as [[a|e] s1]; reflexivity. Qed.

Lemma append_only_bind {A B : Type} (m : M session A) (k : A -> M session B) :
  append_only m -> (forall a, append_only (k a)) -> append_only (bind m k).
Proof.
  intros Hm Hk s. rewrite bind_state. specialize (Hm s).
  destruct (m s) as [[a|e] s1]; [|exact Hm].
  etrans; [exact Hm|apply Hk].
Qed.

Lemma append_only_for_each {A : Type} (l : list A) (body : A -> M session unit) :
  (forall x, append_only (body x)) -> append_only (for_each l body).
Proof.
  intros Hbody. induction l as [|x l IH].
  - intros s. reflexivity.
  - cbn [for_each]. apply append_only_bind; [apply Hbody|intros _; exact IH].
Qed.

Lemma keeps_messages_on_world {A : Type} (m : M world A) : keeps_messages (on_world m).
Proof. intros s. unfold on_world. destruct (m (outside s)). reflexivity. Qed.

Lemma keeps_messages_append_only {A : Type} (m : M session A) :
  keeps_messages m -> append_only m.
Proof. intros Hm s. rewrite Hm. reflexivity. Qed.

Lemma append_only_append_message m : append_only (append_message m).
Proof. intros s. cbn. apply prefix_app_r. reflexivity. Qed.

Lemma append_only_lift {A : Type} (r : result A) : append_only (lift r).
Proof. intros s. reflexivity. Qed.

Lemma append_only_ret {A : Type} (a : A) : append_only (ret a).
Proof. intros s. reflexivity. Qed.

Lemma append_only_read : append_only read_messages.
Proof. intros s. reflexivity. Qed.

Section AppendOnly.
Context `{Builtins} (P : provider).

Lemma append_only_process_tool_call registry tc :
  append_only (process_tool_call registry tc).
Proof.
  unfold process_tool_call. cbv zeta.
  destruct (registry !! name (function tc)) as [f|]; [|apply append_only_ret].
  apply append_only_bind; [apply append_only_lift|intros function_args].
  apply append_only_bind; [apply append_only_lift|intros kwargs].
  apply append_only_bind;
    [apply keeps_messages_append_only, keeps_messages_on_world|intros response].
  apply append_only_append_message.
Qed.

Lemma append_only_process_tool_calls response registry :
  append_only (process_tool_calls response registry).
Proof. apply append_only_for_each, append_only_process_tool_call. Qed.

Lemma append_only_conversation_rounds : append_only (conversation_rounds P).
Proof.
  unfold conversation_rounds.
  repeat first
    [ apply append_only_process_tool_calls
    | apply append_only_append_message
    | apply append_only_read
    | apply append_only_ret
    | apply keeps_messages_append_only, keeps_messages_on_world
    | apply append_only_bind; [|intros ?]
    | match goal with |- append_only (match ?x with _ => _ end) => destruct x end ].
Qed.

End AppendOnly.

Lemma history_grows_refl s : history_grows s s.
Proof.
  split; [reflexivity|]. exists []. rewrite app_nil_r.
  repeat split; constructor.
Qed.

Lemma history_grows_trans s1 s2 s3 :
  history_grows s1 s2 -> history_grows s2 s3 -> history_grows s1 s3.
Proof.
  intros (Hm12 & r12 & Hlog12 & Hall12 & Hord12) (Hm23 & r23 & Hlog23 & Hall23 & Hord23).
  split; [etrans; eassumption|].
  exists (r12 ++ r23). split; [rewrite Hlog23, Hlog12, app_assoc; reflexivity|].
  rewrite Forall_forall in Hall12, Hall23. split.
  - apply Forall_app. split; apply Forall_forall; intros q Hq.
    + destruct (Hall12 q Hq) as [Ha Hb]. split; [exact Ha|etrans; eassumption].
    + destruct (Hall23 q Hq) as [Ha Hb]. split; [etrans; eassumption|exact Hb].
  - apply StronglySorted_app_2; [|exact Hord12|exact Hord23].
    intros q q' Hq Hq'.
    destruct (Hall12 q Hq) as [_ Hb]. destruct (Hall23 q' Hq') as [Ha _].
    etrans; eassumption.
Qed.

Lemma history_grows_bind {A B : Type} (m : M session A) (k : A -> M session B) s :
  history_grows s (m s).2 ->
  (forall a s1, m s = (Ok a, s1) -> history_grows s1 (k a s1).2) ->
  history_grows s (bind m k s).2.
Proof.
  intros Hm Hk. rewrite bind_state. destruct (m s) as [[a|e] s1]; [|exact Hm].
  eapply history_grows_trans; [exact Hm|apply Hk; reflexivity].
Qed.

Lemma history_grows_on_world {A : Type} (m : M world A) s :
  quiet m -> history_grows s (on_world m s).2.
Proof.
  intros Hq. unfold on_world. specialize (Hq (outside s)).
  destruct (m (outside s)) as [r w]. cbn in *.
  split; [reflexivity|]. exists []. rewrite app_nil_r.
  repeat split; [exact Hq|constructor|constructor].
Qed.

Lemma history_grows_append m s : history_grows s (append_message m s).2.
Proof.
  split; [apply append_only_append_message|]. exists []. cbn. rewrite app_nil_r.
  repeat split; constructor.
Qed.

Lemma quiet_bind {A B : Type} (m : M world A) (k : A -> M world B) :
  quiet m -> (forall a, quiet (k a)) -> quiet (bind m k).
Proof.
  intros Hm Hk w. rewrite bind_state. specialize (Hm w).
  destruct (m w) as [[a|e] w1]; [|exact Hm]. rewrite Hk. exact Hm.
Qed.

Lemma quiet_ret {A : Type} (a : A) : quiet (ret a).
Proof. intros w. reflexivity. Qed.

Lemma quiet_raise {A : Type} (e : exn) : quiet (@raise world A e).
Proof. intros w. reflexivity. Qed.

Lemma quiet_lift {A : Type} (r : result A) : quiet (lift r).
Proof. intros w. reflexivity. Qed.

Lemma quiet_print text : quiet (print text).
Proof. intros w. reflexivity. Qed.

Lemma quiet_input prompt : quiet (input prompt).
Proof. intros w. unfold input. destruct (stdin w); reflexivity. Qed.

Lemma quiet_requests_get_json P url : quiet (requests_get_json P url).
Proof. intros w. reflexivity. Qed.

Lemma quiet_call_with_kwargs param f kwargs :
  (forall v, quiet (f v)) -> quiet (call_with_kwargs param f kwargs).
Proof.
  intros Hf. unfold call_with_kwargs.
  destruct kwargs as [|[k v] [|? ?]]; try apply quiet_raise.
  destruct (String.eqb k param); [apply Hf|apply quiet_raise].
Qed.

Section Growth.
Context `{Builtins} (P : provider).

Lemma quiet_search_stock_symbol keywords : quiet (search_stock_symbol P keywords).
Proof.
  apply quiet_bind; [apply quiet_requests_get_json|intros data; apply quiet_lift].
Qed.

Lemma quiet_get_stock_price symbol : quiet (get_stock_price P symbol).
Proof.
  apply quiet_bind; [apply quiet_requests_get_json|intros data; apply quiet_lift].
Qed.

Lemma quiet_available_functions function_name (f : tool_function) kwargs :
  available_functions P !! function_name = Some f -> quiet (f kwargs).
Proof.
  unfold available_functions. intros Hf.
  apply lookup_insert_Some in Hf as [[_ <-]|[_ Hf]].
  - apply quiet_call_with_kwargs, quiet_search_stock_symbol.
  - apply lookup_singleton_Some in Hf as [_ <-].
    apply quiet_call_with_kwargs, quiet_get_stock_price.
Qed.

Lemma quiet_process_chunk acc c : quiet (process_chunk acc c).
Proof.
  unfold process_chunk. destruct acc as [full_text calls].
  destruct (choices c) as [|d ds]; [apply quiet_raise|].
  apply quiet_bind; [|intros ?; apply quiet_ret].
  destruct (delta_content d) as [[|a text]|]; try apply quiet_ret.
  apply quiet_bind; [apply quiet_print|intros ?; apply quiet_ret].
Qed.

Lemma quiet_process_chunks chunks : forall acc, quiet (process_chunks acc chunks).
Proof.
  induction chunks as [|c chunks IH]; intros acc.
  - apply quiet_ret.
  - cbn [process_chunks]. apply quiet_bind; [apply quiet_process_chunk|intros ?; apply IH].
Qed.

Lemma quiet_process_stream response : quiet (process_stream response).
Proof.
  unfold process_stream. apply quiet_bind; [apply quiet_process_chunks|intros [? ?]].
  apply quiet_bind; [|intros ?; apply quiet_ret].
  destruct (failure response); [apply quiet_raise|apply quiet_ret].
Qed.

(** A model call logs one request, which carries the list it was given. *)
Lemma get_model_response_log msgs tools0 w :
  chat_log (get_model_response P msgs tools0 w).2
  = chat_log w ++ [{| request_messages := msgs; request_tools := tools0 |}].
Proof.
  unfold get_model_response. rewrite bind_state. unfold create_completion.
  destruct (chat_completions_create P (chat_log w) _) as [response|e]; [|reflexivity].
  rewrite quiet_process_stream. reflexivity.
Qed.

Lemma history_grows_model_call tools0 s :
  history_grows s (on_world (get_model_response P (messages s) tools0) s).2.
Proof.
  pose proof (get_model_response_log (messages s) tools0 (outside s)) as Hlog.
  unfold on_world. destruct (get_model_response P (messages s) tools0 (outside s)) as [r w].
  cbn in *. split; [reflexivity|].
  exists [{| request_messages := messages s; request_tools := tools0 |}].
  split; [exact Hlog|]. split.
  - constructor; [|constructor]. cbn. split; reflexivity.
  - repeat constructor.
Qed.

Lemma history_grows_process_tool_call registry tc s :
  (forall function_name (f : tool_function) kwargs,
      registry !! function_name = Some f -> quiet (f kwargs)) ->
  history_grows s (process_tool_call registry tc s).2.
Proof.
  intros Hquiet. unfold process_tool_call. cbv zeta.
  destruct (registry !! name (function tc)) as [f|] eqn:Hf; [|apply history_grows_refl].
  apply history_grows_bind; [apply history_grows_refl|intros function_args s1 _].
  apply history_grows_bind; [apply history_grows_refl|intros kwargs s2 _].
  apply history_grows_bind; [|intros response s3 _; apply history_grows_append].
  apply history_grows_on_world. eapply Hquiet, Hf.
Qed.

Lemma history_grows_process_tool_calls registry response s :
  (forall function_name (f : tool_function) kwargs,
      registry !! function_name = Some f -> quiet (f kwargs)) ->
  history_grows s (process_tool_calls response registry s).2.
Proof.
  intros Hquiet. unfold process_tool_calls.
  generalize (default [] (tool_calls response)). intros calls. revert s.
  induction calls as [|tc calls IH]; intros s.
  - apply history_grows_refl.
  - cbn [for_each]. apply history_grows_bind.
    + apply history_grows_process_tool_call, Hquiet.
    + intros _ s1 _. apply IH.
Qed.

Lemma history_grows_conversation_rounds s :
  history_grows s (conversation_rounds P s).2.
Proof.
  unfold conversation_rounds.
  repeat first
    [ apply history_grows_refl
    | apply history_grows_append
    | apply history_grows_model_call
    | apply history_grows_on_world, quiet_input
    | apply history_grows_process_tool_calls, quiet_available_functions
    | match goal with
      | |- history_grows ?s (bind read_messages ?k ?s).2 =>
          change (history_grows s (k (messages s) s).2); cbv beta
      | |- history_grows _ (bind _ _ _).2 => apply history_grows_bind; [|intros ? ? _]
      | |- history_grows _ (match ?x with _ => _ end _).2 => destruct x
      end ].
Qed.

End Growth.

Section AppendOnlyTheorem.
Context `{Builtins} (P : provider).

(** C8. The message list is append-only: a model call and the
    accumulation of its stream leave it unchanged, the dispatcher and the
    three rounds only append to it, and over the rounds every list sent
    to the model extends the ones sent before and is extended by the
    final list. [get_stock_info] builds the list once, after its first
    prompt, and then runs the rounds on it. *)
Theorem message_list_is_append_only :
  (forall msgs tools0, keeps_messages (on_world (get_model_response P msgs tools0))) /\
  (forall response, keeps_messages (on_world (process_stream response))) /\
  (forall response registry, append_only (process_tool_calls response registry)) /\
  append_only (conversation_rounds P) /\
  (forall s, history_grows s (conversation_rounds P s).2) /\
  (forall w,
     match input "Enter the stock or company name you want to search for: " w with
     | (Ok stock_query, w1) =>
         history_grows {| messages := initial_messages stock_query; outside := w1 |}
                       (get_stock_info P (new_session w)).2
     | (Raise _, w1) =>
         (get_stock_info P (new_session w)).2 = {| messages := []; outside := w1 |}
     end).
Proof.
  split; [intros; apply keeps_messages_on_world|].
  split; [intros; apply keeps_messages_on_world|].
  split; [intros; apply append_only_process_tool_calls|].
  split; [apply append_only_conversation_rounds|].
  split; [apply history_grows_conversation_rounds|].
  intros w. unfold get_stock_info. rewrite bind_state.
  unfold on_world, new_session. cbn [outside messages].
  destruct (input _ w) as [[stock_query|e] w1]; [|reflexivity].
  rewrite bind_state. cbn. apply history_grows_conversation_rounds.
Qed.

End AppendOnlyTheorem.

(** ** Tool requests and their answers *)

Lemma stray_session_requests :
  length (session_requests stray_provider apple_world) = 3.
Proof. vm_compute. reflexivity. Qed.


Lemma bind_inv {S A B : Type} (m : M S A) (k : A -> M S B) s r s' :
  bind m k s = (r, s') ->
  (exists a s1, m s = (Ok a, s1) /\ k a s1 = (r, s')) \/
  (exists e, m s = (Raise e, s') /\ r = Raise e).
Proof.
  unfold bind. destruct (m s) as [[a|e] s1]; intros Hrun.
  - left. eauto.
  - right. exists e. inversion Hrun; subst. auto.
Qed.

Lemma process_stream_role response w m w' :
  process_stream response w = (Ok m, w') -> role m = "assistant".
Proof.
  unfold process_stream. intros Hrun.
  apply bind_inv in Hrun as [([full_text calls] & w1 & _ & Hrun)|(e & _ & [=])].
  apply bind_inv in Hrun as [(_ & w2 & _ & Hrun)|(e & _ & [=])].
  inversion Hrun. reflexivity.
Qed.

Section Answers.
Context `{Builtins} (P : provider).

(** What one model call does to the session. *)
Lemma model_call_inv msgs tools0 s r s' :
  on_world (get_model_response P msgs tools0) s = (r, s') ->
  messages s' = messages s /\
  chat_log (outside s')
  = chat_log (outside s) ++ [{| request_messages := msgs; request_tools := tools0 |}] /\
  (forall response, r = Ok response -> role response = "assistant").
Proof.
  intros Hrun.
  pose proof (get_model_response_log P msgs tools0 (outside s)) as Hlog.
  unfold on_world in Hrun.
  destruct (get_model_response P msgs tools0 (outside s)) as [r0 w] eqn:Hcall.
  inversion Hrun; subst. cbn [messages outside snd] in *.
  repeat split; [exact Hlog|].
  intros response ->. unfold get_model_response in Hcall.
  apply bind_inv in Hcall as [(str & w1 & _ & Hcall)|(e & _ & [=])].
  eapply process_stream_role, Hcall.
Qed.

Lemma quiet_on_world_inv {A : Type} (m : M world A) s r s' :
  quiet m -> on_world m s = (r, s') ->
  messages s' = messages s /\ chat_log (outside s') = chat_log (outside s).
Proof.
  intros Hq Hrun. unfold on_world in Hrun. specialize (Hq (outside s)).
  destruct (m (outside s)) as [r0 w]. inversion Hrun; subst. cbn in *. auto.
Qed.

(** What the dispatch of one request does to the session. *)
Lemma process_tool_call_inv registry tc s r s' :
  (forall function_name (f : tool_function) kwargs,
      registry !! function_name = Some f -> quiet (f kwargs)) ->
  process_tool_call registry tc s = (r, s') ->
  chat_log (outside s') = chat_log (outside s) /\
  exists replies,
    messages s' = messages s ++ replies /\
    (r = Ok tt -> Forall2 reply_to (known_calls registry [tc]) replies).
Proof.
  intros Hquiet. unfold process_tool_call, known_calls. cbv zeta.
  rewrite filter_cons, filter_nil.
  destruct (registry !! name (function tc)) as [f|] eqn:Hf.
  - rewrite decide_True by eauto. intros Hrun.
    apply bind_inv in Hrun as [(function_args & s1 & Hstep & Hrun)|(e & Hstep & ->)];
      unfold lift in Hstep; inversion Hstep; subst; clear Hstep;
      [|split; [reflexivity|exists []; rewrite app_nil_r; split; [reflexivity|discriminate]]].
    apply bind_inv in Hrun as [(kwargs & s2 & Hstep & Hrun)|(e & Hstep & ->)];
      unfold lift in Hstep; inversion Hstep; subst; clear Hstep;
      [|split; [reflexivity|exists []; rewrite app_nil_r; split; [reflexivity|discriminate]]].
    apply bind_inv in Hrun as [(response & s3 & Hstep & Hrun)|(e & Hstep & ->)];
      apply (quiet_on_world_inv _ _ _ _ (Hquiet _ _ kwargs Hf)) in Hstep as [Hmsgs Hlog];
      [|split; [exact Hlog|exists []; rewrite app_nil_r; split; [exact Hmsgs|discriminate]]].
    unfold append_message in Hrun. inversion Hrun; subst. cbn.
    split; [exact Hlog|]. eexists. split; [rewrite Hmsgs; reflexivity|].
    intros _. repeat constructor.
  - rewrite decide_False by (intros [? ?]; discriminate). intros Hrun.
    inversion Hrun; subst. split; [reflexivity|].
    exists []. rewrite app_nil_r. split; [reflexivity|constructor].
Qed.

Lemma process_tool_calls_inv registry response s r s' :
  (forall function_name (f : tool_function) kwargs,
      registry !! function_name = Some f -> quiet (f kwargs)) ->
  process_tool_calls response registry s = (r, s') ->
  chat_log (outside s') = chat_log (outside s) /\
  exists replies,
    messages s' = messages s ++ replies /\
    (r = Ok tt ->
     Forall2 reply_to (known_calls registry (default [] (tool_calls response))) replies).
Proof.
  intros Hquiet. unfold process_tool_calls.
  generalize (default [] (tool_calls response)). intros calls. revert s.
  induction calls as [|tc calls IH]; intros s Hrun.
  - inversion Hrun; subst. split; [reflexivity|].
    exists []. rewrite app_nil_r. split; [reflexivity|constructor].
  - cbn [for_each] in Hrun.
    apply bind_inv in Hrun as [([] & s1 & Hstep & Hrun)|(e & Hstep & ->)];
      apply (process_tool_call_inv _ _ _ _ _ Hquiet) in Hstep
        as (Hlog1 & replies1 & Hmsgs1 & Hok1).
    + apply IH in Hrun as (Hlog2 & replies2 & Hmsgs2 & Hok2).
      split; [congruence|]. exists (replies1 ++ replies2).
      split; [rewrite Hmsgs2, Hmsgs1, app_assoc; reflexivity|].
      intros Hr. change (tc :: calls) with ([tc] ++ calls).
      unfold known_calls in *. rewrite filter_app.
      apply Forall2_app; auto.
    + split; [exact Hlog1|]. exists replies1. split; [exact Hmsgs1|discriminate].
Qed.

End Answers.

Section Chain.
Context (registry : gmap string tool_function) (tools0 : json).

Local Abbreviation request msgs :=
  {| request_messages := msgs; request_tools := tools0 |}.

Lemma chain_one msgs : conversation_chain registry msgs [request msgs].
Proof.
  split.
  - intros q [= <-]. reflexivity.
  - intros [|i] q q' Hq Hq'; discriminate.
Qed.

Lemma chain_two msgs response replies :
  role response = "assistant" ->
  Forall2 reply_to (known_calls registry (default [] (tool_calls response))) replies ->
  conversation_chain registry msgs
    [request msgs; request (msgs ++ response :: replies)].
Proof.
  intros Hrole Hreplies. split.
  - intros q [= <-]. reflexivity.
  - intros [|[|i]] q q' Hq Hq'; try discriminate.
    injection Hq as <-. injection Hq' as <-. split; [intros _|congruence].
    exists response, replies. auto.
Qed.

Lemma chain_three msgs response replies response2 choice :
  role response = "assistant" ->
  Forall2 reply_to (known_calls registry (default [] (tool_calls response))) replies ->
  role response2 = "assistant" -> role choice = "user" -> tool_calls choice = None ->
  conversation_chain registry msgs
    [request msgs; request (msgs ++ response :: replies);
     request ((msgs ++ response :: replies) ++ [response2; choice])].
Proof.
  intros Hrole Hreplies Hrole2 Hchoice Hnone. split.
  - intros q [= <-]. reflexivity.
  - intros [|[|[|i]]] q q' Hq Hq'; try discriminate;
      injection Hq as <-; injection Hq' as <-.
    + split; [intros _|congruence]. exists response, replies. auto.
    + split; [congruence|intros _]. exists response2, choice. auto.
Qed.

Lemma chain_four msgs response replies response2 choice response3 replies3 :
  role response = "assistant" ->
  Forall2 reply_to (known_calls registry (default [] (tool_calls response))) replies ->
  role response2 = "assistant" -> role choice = "user" -> tool_calls choice = None ->
  role response3 = "assistant" ->
  Forall2 reply_to (known_calls registry (default [] (tool_calls response3))) replies3 ->
  conversation_chain registry msgs
    [request msgs; request (msgs ++ response :: replies);
     request ((msgs ++ response :: replies) ++ [response2; choice]);
     request (((msgs ++ response :: replies) ++ [response2; choice])
              ++ response3 :: replies3)].
Proof.
  intros Hrole Hreplies Hrole2 Hchoice Hnone Hrole3 Hreplies3. split.
  - intros q [= <-]. reflexivity.
  - intros [|[|[|[|i]]]] q q' Hq Hq'; try discriminate;
      injection Hq as <-; injection Hq' as <-.
    + split; [intros _|congruence]. exists response, replies. auto.
    + split; [congruence|intros _]. exists response2, choice. auto.
    + split; [intros _|congruence]. exists response3, replies3. auto.
Qed.

End Chain.

Lemma read_messages_inv s msgs s' r :
  read_messages s = (r, s') -> r = Ok msgs -> msgs = messages s /\ s' = s.
Proof. unfold read_messages. intros [= <- <-] [= <-]. auto. Qed.

Lemma append_message_inv m s r s' :
  append_message m s = (r, s') ->
  r = Ok tt /\ messages s' = messages s ++ [m] /\ outside s' = outside s.
Proof. unfold append_message. intros [= <- <-]. auto. Qed.

Section Rounds.
Context `{Builtins} (P : provider).

(** The chat requests of the three rounds. *)
Lemma conversation_rounds_chain s r s' :
  conversation_rounds P s = (r, s') ->
  exists requests,
    chat_log (outside s') = chat_log (outside s) ++ requests /\
    conversation_chain (available_functions P) (messages s) requests.
Proof.
  intros Hrun. unfold conversation_rounds in Hrun.
  pose proof (quiet_available_functions P) as Hquiet.
  (* round one *)
  apply bind_inv in Hrun as [(msgs1 & s0 & Hread & Hrun)|(e & [=] & _)].
  destruct (read_messages_inv _ _ _ _ Hread eq_refl) as [-> ->]. clear Hread.
  apply bind_inv in Hrun as [(response1 & s1 & Hcall & Hrun)|(e & Hcall & ->)];
    apply model_call_inv in Hcall as (Hm1 & Hl1 & Hrole1).
  2: { eexists. split; [exact Hl1|apply chain_one]. }
  specialize (Hrole1 _ eq_refl).
  apply bind_inv in Hrun as [([] & s2 & Happ & Hrun)|(e & [=] & _)].
  apply append_message_inv in Happ as (_ & Hm2 & Ho2).
  apply bind_inv in Hrun as [([] & s3 & Hdisp & Hrun)|(e & Hdisp & ->)];
    apply (process_tool_calls_inv _ _ _ _ _ Hquiet) in Hdisp
      as (Hl3 & replies1 & Hm3 & Hok1).
  2: { eexists. split; [rewrite Hl3, Ho2; exact Hl1|apply chain_one]. }
  specialize (Hok1 eq_refl).
  assert (Hm3' : messages s3 = messages s ++ response1 :: replies1).
  { rewrite Hm3, Hm2, Hm1, <- app_assoc. reflexivity. }
  assert (Hl3' : chat_log (outside s3)
                 = chat_log (outside s)
                   ++ [{| request_messages := messages s; request_tools := tools |}]).
  { rewrite Hl3, Ho2. exact Hl1. }
  clear Hm3 Hm2 Hm1 Hl3 Ho2 Hl1.
  (* round two *)
  apply bind_inv in Hrun as [(msgs2 & s0 & Hread & Hrun)|(e & [=] & _)].
  destruct (read_messages_inv _ _ _ _ Hread eq_refl) as [-> ->]. clear Hread.
  apply bind_inv in Hrun as [(response2 & s4 & Hcall & Hrun)|(e & Hcall & ->)];
    apply model_call_inv in Hcall as (Hm4 & Hl4 & Hrole2).
  2: { eexists. split; [rewrite Hl4, Hl3', <- app_assoc; reflexivity|].
       rewrite Hm3'. apply chain_two; assumption. }
  specialize (Hrole2 _ eq_refl).
  apply bind_inv in Hrun as [([] & s5 & Happ & Hrun)|(e & [=] & _)].
  apply append_message_inv in Happ as (_ & Hm5 & Ho5).
  apply bind_inv in Hrun as [(user_choice & s6 & Hin & Hrun)|(e & Hin & ->)];
    apply (quiet_on_world_inv _ _ _ _ (quiet_input _)) in Hin as (Hm6 & Hl6).
  2: { eexists. split; [rewrite Hl6, Ho5, Hl4, Hl3', <- app_assoc; reflexivity|].
       rewrite Hm3'. apply chain_two; assumption. }
  apply bind_inv in Hrun as [([] & s7 & Happ & Hrun)|(e & [=] & _)].
  apply append_message_inv in Happ as (_ & Hm7 & Ho7).
  set (choice := plain_message "user" ("I choose option " +:+ user_choice +:+ ".")) in *.
  assert (Hm7' : messages s7
                 = (messages s ++ response1 :: replies1) ++ [response2; choice]).
  { rewrite Hm7, Hm6, Hm5, Hm4, Hm3', <- !app_assoc. reflexivity. }
  assert (Hl7' : chat_log (outside s7)
                 = chat_log (outside s)
                   ++ [{| request_messages := messages s; request_tools := tools |};
                       {| request_messages := messages s ++ response1 :: replies1;
                          request_tools := tools |}]).
  { rewrite Ho7, Hl6, Ho5, Hl4, Hl3', Hm3', <- app_assoc. reflexivity. }
  clear Hm7 Hm6 Hm5 Hm4 Ho7 Hl6 Ho5 Hl4 Hl3'.
  (* round three *)
  apply bind_inv in Hrun as [(msgs3 & s0 & Hread & Hrun)|(e & [=] & _)].
  destruct (read_messages_inv _ _ _ _ Hread eq_refl) as [-> ->]. clear Hread.
  apply bind_inv in Hrun as [(response3 & s8 & Hcall & Hrun)|(e & Hcall & ->)];
    apply model_call_inv in Hcall as (Hm8 & Hl8 & Hrole3).
  2: { eexists. split; [rewrite Hl8, Hl7', Hm7', <- app_assoc; reflexivity|].
       apply chain_three; auto. }
  specialize (Hrole3 _ eq_refl).
  apply bind_inv in Hrun as [([] & s9 & Happ & Hrun)|(e & [=] & _)].
  apply append_message_inv in Happ as (_ & Hm9 & Ho9).
  assert (Hl9' : chat_log (outside s9)
                 = chat_log (outside s)
                   ++ [{| request_messages := messages s; request_tools := tools |};
                       {| request_messages := messages s ++ response1 :: replies1;
                          request_tools := tools |};
                       {| request_messages :=
                            (messages s ++ response1 :: replies1) ++ [response2; choice];
                          request_tools := tools |}]).
  { rewrite Ho9, Hl8, Hl7', Hm7', <- app_assoc. reflexivity. }
  assert (Hthree : exists requests,
             chat_log (outside s9) = chat_log (outside s) ++ requests /\
             conversation_chain (available_functions P) (messages s) requests).
  { eexists. split; [exact Hl9'|]. apply chain_three; auto. }
  destruct (tool_calls response3) as [[|tc calls]|] eqn:Hcalls;
    try (inversion Hrun; subst; exact Hthree).
  apply bind_inv in Hrun as [([] & s10 & Hdisp & Hrun)|(e & Hdisp & ->)];
    apply (process_tool_calls_inv _ _ _ _ _ Hquiet) in Hdisp
      as (Hl10 & replies3 & Hm10 & Hok3).
  2: { rewrite Hl10. exact Hthree. }
  specialize (Hok3 eq_refl).
  assert (Hm10' : messages s10
                  = ((messages s ++ response1 :: replies1) ++ [response2; choice])
                    ++ response3 :: replies3).
  { rewrite Hm10, Hm9, Hm8, Hm7', <- (app_assoc _ [response3]). reflexivity. }
  apply bind_inv in Hrun as [(msgs4 & s0 & Hread & Hrun)|(e & [=] & _)].
  destruct (read_messages_inv _ _ _ _ Hread eq_refl) as [-> ->]. clear Hread.
  assert (Hfour : forall r4 s11,
             on_world (get_model_response P (messages s10) tools) s10 = (r4, s11) ->
             exists requests,
               chat_log (outside s11) = chat_log (outside s) ++ requests /\
               conversation_chain (available_functions P) (messages s) requests).
  { intros r4 s11 Hcall. apply model_call_inv in Hcall as (_ & Hl11 & _).
    eexists. split.
    - rewrite Hl11, Hl10, Hl9', Hm10', <- app_assoc. reflexivity.
    - apply chain_four; auto. }
  apply bind_inv in Hrun as [(response4 & s11 & Hcall & Hrun)|(e & Hcall & ->)].
  - inversion Hrun; subst. eapply Hfour, Hcall.
  - eapply Hfour, Hcall.
Qed.

End Rounds.
Section AnswersTheorem.
Context `{Builtins} (P : provider).

Lemma available_functions_names function_name :
  is_Some (available_functions P !! function_name)
  <-> function_name = "search_stock_symbol" \/ function_name = "get_stock_price".
Proof.
  unfold available_functions. split.
  - intros [f Hf]. apply lookup_insert_Some in Hf as [[<- _]|[_ Hf]]; [auto|].
    apply lookup_singleton_Some in Hf as [<- _]. auto.
  - intros [-> | ->]; [rewrite lookup_insert_eq; eauto|].
    rewrite lookup_insert_ne by discriminate. rewrite lookup_singleton_eq. eauto.
Qed.


End AnswersTheorem.


(** ** The order of floats *)

Lemma float_lt_rank x y :
  float_is_nan x = false -> float_is_nan y = false ->
  float_lt x y = true <-> rank_lt (float_rank x) (float_rank y).
Proof.
  unfold float_lt, SFltb, rank_lt.
  destruct x as [sx|sx| |sx mx ex], y as [sy|sy| |sy my ey]; try discriminate;
    intros _ _; cbn;
    repeat match goal with s : bool |- _ => destruct s end; cbn;
    try (split; [discriminate|lia]); try (split; [lia|discriminate]);
    try (split; [intros _; lia|reflexivity]).
  - destruct (Z.compare_spec ex ey) as [Heq|Hlt|Hgt]; cbn.
    + subst. rewrite Pos.compare_cont_spec.
      destruct (Pos.compare_spec mx my) as [Hm|Hm|Hm]; cbn;
        split; try discriminate; try lia; try reflexivity.
    + split; [discriminate|lia].
    + split; [intros _; lia|reflexivity].
  - destruct (Z.compare_spec ex ey) as [Heq|Hlt|Hgt]; cbn.
    + subst. rewrite Pos.compare_cont_spec.
      destruct (Pos.compare_spec mx my) as [Hm|Hm|Hm]; cbn;
        split; try discriminate; try lia; try reflexivity.
    + split; [intros _; lia|reflexivity].
    + split; [discriminate|lia].
Qed.

Lemma float_lt_rank_false x y :
  float_is_nan x = false -> float_is_nan y = false ->
  float_lt x y = false <-> ~ rank_lt (float_rank x) (float_rank y).
Proof.
  intros Hx Hy. rewrite <- (float_lt_rank x y Hx Hy).
  destruct (float_lt x y); split; congruence.
Qed.

Lemma float_lt_asym x y :
  float_is_nan x = false -> float_is_nan y = false ->
  float_lt x y = true -> float_lt y x = false.
Proof.
  intros Hx Hy. rewrite (float_lt_rank x y Hx Hy), (float_lt_rank_false y x Hy Hx).
  unfold rank_lt.
  destruct (float_rank x) as [[a b] c], (float_rank y) as [[a' b'] c']. cbn. lia.
Qed.

Lemma float_lt_negtrans x y z :
  float_is_nan x = false -> float_is_nan y = false -> float_is_nan z = false ->
  float_lt x z = true -> float_lt x y = true \/ float_lt y z = true.
Proof.
  intros Hx Hy Hz.
  rewrite (float_lt_rank x z Hx Hz), (float_lt_rank x y Hx Hy), (float_lt_rank y z Hy Hz).
  unfold rank_lt.
  destruct (float_rank x) as [[a b] c], (float_rank y) as [[a' b'] c'],
    (float_rank z) as [[a'' b''] c'']. cbn. lia.
Qed.

(** On floats that are not NaN, [y <= x] says that [x] is not below [y]. *)
Lemma float_le_not_lt x y :
  float_is_nan x = false -> float_is_nan y = false ->
  SFleb y x = true <-> float_lt x y = false.
Proof.
  intros Hx Hy. rewrite (float_lt_rank_false x y Hx Hy). unfold rank_lt, SFleb.
  destruct x as [sx|sx| |sx mx ex], y as [sy|sy| |sy my ey]; try discriminate; cbn;
    repeat match goal with s : bool |- _ => destruct s end; cbn;
    try (split; [discriminate|lia]); try (split; [lia|discriminate]);
    try (split; [intros _; lia|reflexivity]);
    (destruct (Z.compare_spec ey ex) as [Heq|Hlt|Hgt]; cbn;
     [subst; rewrite Pos.compare_cont_spec;
      destruct (Pos.compare_spec my mx) as [Hm|Hm|Hm]; cbn|..]);
    split; try discriminate; try lia; try reflexivity; try (intros _; lia).
Qed.

(** ** The stable sort *)

Section SortFacts.
Context {A : Type} (lt : A -> A -> bool).

Lemma insert_sorted_perm x l : insert_sorted lt x l ≡ₚ x :: l.
Proof.
  induction l as [|y l IH]; [reflexivity|]. cbn.
  destruct (lt y x); [|reflexivity].
  rewrite IH. apply perm_swap.
Qed.

Lemma sort_stable_perm l : sort_stable lt l ≡ₚ l.
Proof.
  induction l as [|x l IH]; [reflexivity|]. cbn.
  rewrite insert_sorted_perm, IH. reflexivity.
Qed.

Lemma sort_stable_fmap {B : Type} (f : B -> A) (l : list B) :
  sort_stable lt (f <$> l) = f <$> sort_stable (fun a b => lt (f a) (f b)) l.
Proof.
  assert (Hins : forall x l', insert_sorted lt (f x) (f <$> l')
                              = f <$> insert_sorted (fun a b => lt (f a) (f b)) x l').
  { intros x l'. induction l' as [|y l' IH]; [reflexivity|]. cbn.
    destruct (lt (f y) (f x)); [|reflexivity]. cbn. rewrite <- IH. reflexivity. }
  induction l as [|x l IH]; [reflexivity|]. cbn. rewrite IH. apply Hins.
Qed.

Context (good : A -> Prop).
Hypothesis lt_asym : forall x y, good x -> good y -> lt x y = true -> lt y x = false.
Hypothesis lt_negtrans :
  forall x y z, good x -> good y -> good z ->
                lt x z = true -> lt x y = true \/ lt y z = true.

Lemma insert_sorted_ascending x l :
  good x -> Forall good l -> ascending lt l -> ascending lt (insert_sorted lt x l).
Proof.
  intros Hx. induction l as [|y l IH]; intros Hgood Hsorted.
  - repeat constructor.
  - apply Forall_cons in Hgood as [Hy Hgood].
    apply StronglySorted_cons in Hsorted as [Hall Hsorted].
    cbn. destruct (lt y x) eqn:Hyx.
    + apply StronglySorted_cons. split; [|apply IH; assumption].
      rewrite insert_sorted_perm. constructor; [|exact Hall].
      apply lt_asym; assumption.
    + apply StronglySorted_cons. split.
      * constructor; [exact Hyx|].
        rewrite Forall_forall in Hall, Hgood |- *. intros z Hz.
        destruct (lt z x) eqn:Hzx; [|reflexivity].
        destruct (lt_negtrans z y x (Hgood z Hz) Hy Hx Hzx) as [Hzy|Hyx'].
        -- rewrite (Hall z Hz) in Hzy. discriminate.
        -- congruence.
      * apply StronglySorted_cons. auto.
Qed.

Lemma sort_stable_ascending l : Forall good l -> ascending lt (sort_stable lt l).
Proof.
  induction l as [|x l IH]; intros Hgood; [constructor|].
  apply Forall_cons in Hgood as [Hx Hgood]. cbn.
  apply insert_sorted_ascending; [exact Hx| |apply IH, Hgood].
  rewrite sort_stable_perm. exact Hgood.
Qed.

End SortFacts.

Section Stability.
Context {A : Type} (lt : A -> A -> bool) (p : A -> bool).

Lemma insert_sorted_filter x l :
  (forall y, y ∈ l -> p x = true -> p y = true -> lt y x = false) ->
  filter p (insert_sorted lt x l) = filter p (x :: l).
Proof.
  induction l as [|y l IH]; intros Hclass; [reflexivity|]. cbn [insert_sorted].
  destruct (lt y x) eqn:Hyx; [|reflexivity].
  rewrite (filter_cons _ y), IH by (intros z Hz; apply Hclass; right; exact Hz).
  rewrite !(filter_cons _ x), (filter_cons _ y).
  destruct (decide (p y)) as [Hy|Hy], (decide (p x)) as [Hx|Hx]; try reflexivity.
  apply Is_true_true in Hx, Hy.
  rewrite (Hclass y (list_elem_of_here _ _) Hx Hy) in Hyx. discriminate.
Qed.

Lemma sort_stable_filter l :
  (forall x y, x ∈ l -> y ∈ l -> p x = true -> p y = true -> lt y x = false) ->
  filter p (sort_stable lt l) = filter p l.
Proof.
  induction l as [|x l IH]; intros Hclass; [reflexivity|]. cbn [sort_stable].
  rewrite insert_sorted_filter.
  - rewrite !(filter_cons _ x), IH; [reflexivity|].
    intros a b Ha Hb. apply Hclass; right; assumption.
  - intros y Hy. rewrite sort_stable_perm in Hy.
    apply Hclass; [left|right; exact Hy].
Qed.

End Stability.

Lemma StronglySorted_reverse {A : Type} (R : relation A) (l : list A) :
  StronglySorted R l -> StronglySorted (flip R) (reverse l).
Proof.
  induction 1 as [|x l Hsorted IH Hall]; [constructor|].
  rewrite reverse_cons. apply StronglySorted_app_2; [|exact IH|repeat constructor].
  intros y z Hy Hz. apply list_elem_of_singleton in Hz as ->.
  rewrite elem_of_reverse in Hy. rewrite Forall_forall in Hall. apply Hall, Hy.
Qed.

Lemma StronglySorted_lookup {A : Type} (R : relation A) (l : list A) i j a b :
  StronglySorted R l -> i < j -> l !! i = Some a -> l !! j = Some b -> R a b.
Proof.
  intros Hsorted. revert i j. induction Hsorted as [|x l Hsorted IH Hall]; intros i j Hij Hi Hj.
  - discriminate.
  - destruct j as [|j]; [lia|]. destruct i as [|i].
    + injection Hi as <-. rewrite Forall_forall in Hall.
      apply Hall. eapply list_elem_of_lookup_2, Hj.
    + apply (IH i j); [lia|exact Hi|exact Hj].
Qed.

Lemma result_map_ok {A B : Type} (f : A -> result B) (g : A -> B) (l : list A) :
  Forall (fun x => f x = Ok (g x)) l -> result_map f l = Ok (g <$> l).
Proof.
  induction 1 as [|x l Hx Hall IH]; [reflexivity|].
  cbn. rewrite Hx, IH. reflexivity.
Qed.

Lemma zip_with_key {A B : Type} (g : A -> B) (l : list A) :
  zip (g <$> l) l = (fun x => (g x, x)) <$> l.
Proof. induction l as [|x l IH]; [reflexivity|]. cbn. rewrite IH. reflexivity. Qed.

(** [sorted] with [reverse=True] on a key that never raises. *)
Lemma py_sorted_reverse_ok {A : Type} (key : A -> result spec_float)
    (g : A -> spec_float) (l : list A) :
  Forall (fun x => key x = Ok (g x)) l ->
  py_sorted key true l
  = Ok (reverse (sort_stable (fun a b => float_lt (g a) (g b)) (reverse l))).
Proof.
  intros Hkey. unfold py_sorted. rewrite (result_map_ok _ _ _ Hkey). cbn [result_bind].
  rewrite zip_with_key, <- fmap_reverse, sort_stable_fmap, <- fmap_reverse.
  rewrite <- list_fmap_compose. f_equal. apply list_fmap_id.
Qed.

Section SortedMatches.
Context `{Builtins}.

Lemma provider_entry_dict m : provider_entry m -> exists fields, m = JDict fields.
Proof. intros [Hsym _]. destruct m; try contradiction. eauto. Qed.

Lemma match_score_provider_entry m :
  provider_entry m -> match_score m = Ok (entry_score m).
Proof.
  intros (_ & _ & _ & Hscore & Hnan). unfold match_score, entry_score in *.
  destruct m as [| | | | | |fields]; try contradiction. cbn in *.
  destruct Hscore as [raw Hraw]. rewrite Hraw in *. cbn in *.
  destruct (py_float raw); [reflexivity|discriminate].
Qed.

Lemma format_match_provider_entry m :
  provider_entry m -> format_match m = Ok (symbol_match m).
Proof.
  intros (Hsym & Hname & Hregion & Hscore & Hnan).
  unfold format_match, symbol_match, entry_score in *.
  destruct m as [| | | | | |fields]; try contradiction. cbn in *.
  destruct Hsym as [symbol ->], Hname as [name ->], Hregion as [region ->],
    Hscore as [raw Hraw]. rewrite Hraw in *. cbn in *.
  destruct (py_float raw); [reflexivity|discriminate].
Qed.

Lemma same_score_class f a b :
  float_is_nan f = false ->
  float_is_nan (entry_score a) = false -> float_is_nan (entry_score b) = false ->
  same_score f a = true -> same_score f b = true ->
  float_lt (entry_score b) (entry_score a) = false.
Proof.
  unfold same_score, float_same. intros Hf Ha Hb.
  rewrite !andb_true_iff, !negb_true_iff. intros [Hfa Haf] [Hfb Hbf].
  destruct (float_lt (entry_score b) (entry_score a)) eqn:Hba; [|reflexivity].
  destruct (float_lt_negtrans _ f _ Hb Hf Ha Hba); congruence.
Qed.

(** The matches as [search_stock_symbol] orders them. *)
Lemma sorted_matches entries :
  Forall provider_entry entries ->
  exists ordered,
    py_sorted match_score true entries = Ok ordered /\
    ordered ≡ₚ entries /\
    by_score_descending ordered /\
    keeps_provider_order ordered entries.
Proof.
  intros Hentries.
  set (lt := fun a b => float_lt (entry_score a) (entry_score b)).
  exists (reverse (sort_stable lt (reverse entries))).
  assert (Hgood : Forall (fun m => float_is_nan (entry_score m) = false) entries).
  { eapply Forall_impl; [exact Hentries|]. intros m Hm. apply Hm. }
  split; [|split; [|split]].
  - apply py_sorted_reverse_ok. eapply Forall_impl; [exact Hentries|].
    intros m. apply match_score_provider_entry.
  - rewrite reverse_Permutation, sort_stable_perm. apply reverse_Permutation.
  - intros i j a b Hij Ha Hb.
    assert (Hsorted : ascending lt (sort_stable lt (reverse entries))).
    { apply (sort_stable_ascending lt (fun m => float_is_nan (entry_score m) = false)).
      - intros x y. apply float_lt_asym.
      - intros x y z. apply float_lt_negtrans.
      - apply Forall_reverse, Hgood. }
    apply StronglySorted_reverse in Hsorted.
    pose proof (StronglySorted_lookup _ _ i j a b Hsorted Hij Ha Hb) as Hab.
    cbn in Hab. unfold lt in Hab.
    assert (Hin : forall k c, reverse (sort_stable lt (reverse entries)) !! k = Some c ->
                              float_is_nan (entry_score c) = false).
    { intros k c Hc. apply list_elem_of_lookup_2 in Hc.
      rewrite elem_of_reverse, sort_stable_perm, elem_of_reverse in Hc.
      rewrite Forall_forall in Hgood. apply Hgood, Hc. }
    apply float_le_not_lt; [eapply Hin, Ha|eapply Hin, Hb|exact Hab].
  - intros f Hf. rewrite filter_reverse, sort_stable_filter.
    + rewrite filter_reverse. apply reverse_involutive.
    + intros x y Hx Hy. rewrite elem_of_reverse in Hx, Hy.
      rewrite Forall_forall in Hgood.
      apply same_score_class; [exact Hf|apply Hgood, Hx|apply Hgood, Hy].
Qed.

End SortedMatches.

Section SearchTheorem.
Context `{Builtins} (P : provider).

(** C2. When the search response lists N entries as the provider sends
    them, [search_stock_symbol] returns the serialization of the N
    SymbolMatch records of these entries, ordered by descending score,
    entries of equal score staying in the provider's order. *)
Theorem search_returns_matches_sorted_by_score keywords w fields entries :
  http_get_json P (http_log w) (search_url P keywords) = Ok (JDict fields) ->
  assoc "bestMatches" fields = Some (JList entries) ->
  Forall provider_entry entries ->
  exists ordered,
    search_stock_symbol P keywords w
    = (Ok (json_dumps (JList (symbol_match <$> ordered))),
       fetched (search_url P keywords) w) /\
    length (symbol_match <$> ordered) = length entries /\
    ordered ≡ₚ entries /\
    by_score_descending ordered /\
    keeps_provider_order ordered entries.
Proof.
  intros Hget Hbest Hentries.
  destruct (sorted_matches entries Hentries) as (ordered & Hsorted & Hperm & Hdesc & Hstable).
  exists ordered. split; [|split; [|auto]].
  - rewrite search_stock_symbol_run, Hget. f_equal.
    change (search_stock_symbol_result (JDict fields)
            = Ok (json_dumps (JList (symbol_match <$> ordered)))).
    unfold search_stock_symbol_result. rewrite py_contains_dict, Hbest.
    cbn [result_bind py_getitem py_iter]. rewrite Hbest.
    replace (bool_decide (is_Some (Some (JList entries)))) with true by reflexivity.
    cbn [result_bind py_iter]. rewrite Hsorted. cbn [result_bind].
    rewrite (result_map_ok format_match symbol_match); [reflexivity|].
    rewrite Hperm. eapply Forall_impl; [exact Hentries|].
    intros m. apply format_match_provider_entry.
  - rewrite length_fmap. apply Permutation_length, Hperm.
Qed.

End SearchTheorem.

Lemma search_returns_matches_sorted_witness :
  exists ordered,
    (search_stock_symbol apple_provider (JStr "Apple") apple_world).1
    = Ok (json_dumps (JList (symbol_match <$> ordered))) /\
    length ordered = 4 /\
    by_score_descending ordered /\
    keeps_provider_order ordered
      [best_match "APLE" "Apple Hospitality REIT Inc" "United States" "0.6000";
       best_match "AAPL" "Apple Inc" "United States" "1.0000";
       best_match "APC.FRK" "Apple Inc" "Frankfurt" "0.6000";
       best_match "AAPL34.SAO" "Apple Inc" "Brazil/Sao Paolo" "0.5000"].
Proof.
  destruct (search_returns_matches_sorted_by_score apple_provider (JStr "Apple") apple_world
              [("bestMatches", JList [
                 best_match "APLE" "Apple Hospitality REIT Inc" "United States" "0.6000";
                 best_match "AAPL" "Apple Inc" "United States" "1.0000";
                 best_match "APC.FRK" "Apple Inc" "Frankfurt" "0.6000";
                 best_match "AAPL34.SAO" "Apple Inc" "Brazil/Sao Paolo" "0.5000"])]
              _ eq_refl eq_refl)
    as (ordered & Hrun & Hlen & _ & Hdesc & Hstable).
  - repeat constructor; cbn; eauto.
  - exists ordered. rewrite Hrun. rewrite length_fmap in Hlen. auto.
Defined.

(** ** Incomplete match entries *)

Lemma result_map_raises {A B : Type} (f : A -> result B) (bad : exn -> Prop) (l : list A) :
  Forall (fun x => (exists y, f x = Ok y) \/ exists e, f x = Raise e /\ bad e) l ->
  Exists (fun x => exists e, f x = Raise e) l ->
  exists e, result_map f l = Raise e /\ bad e.
Proof.
  induction l as [|x l IH]; intros Hall Hex; [inversion Hex|].
  apply Forall_cons in Hall as [Hx Hall]. cbn.
  destruct Hx as [[y Hy]|(e & He & Hbad)].
  - rewrite Hy. cbn. apply Exists_cons in Hex as [[e He]|Hex]; [congruence|].
    destruct (IH Hall Hex) as (e & -> & Hbad). eauto.
  - rewrite He. eauto.
Qed.

Section IncompleteEntries.
Context `{Builtins} (P : provider).

(** The sort key of an entry without a match score is [float(0)]. *)
Lemma match_score_sortable m : sortable_entry m -> exists f, match_score m = Ok f.
Proof.
  intros (fields & -> & Hraw). unfold match_score. cbn.
  destruct (assoc "9. matchScore" fields) as [raw|]; cbn.
  - apply Hraw. reflexivity.
  - exists (S754_zero false). reflexivity.
Qed.

Lemma format_match_sortable m :
  sortable_entry m ->
  (exists r, format_match m = Ok r) \/
  (exists e, format_match m = Raise e /\ exists k, k ∈ provider_fields /\ e = KeyError k).
Proof.
  intros (fields & -> & Hraw). unfold format_match, provider_fields. cbn.
  destruct (assoc "1. symbol" fields); cbn;
    [|right; eexists; split; [reflexivity|]; eexists; split; [|reflexivity]; set_solver].
  destruct (assoc "2. name" fields); cbn;
    [|right; eexists; split; [reflexivity|]; eexists; split; [|reflexivity]; set_solver].
  destruct (assoc "4. region" fields); cbn;
    [|right; eexists; split; [reflexivity|]; eexists; split; [|reflexivity]; set_solver].
  destruct (assoc "9. matchScore" fields) as [raw|]; cbn;
    [|right; eexists; split; [reflexivity|]; eexists; split; [|reflexivity]; set_solver].
  destruct (Hraw raw eq_refl) as [f ->]. cbn. left. eauto.
Qed.

Lemma format_match_incomplete m :
  sortable_entry m -> incomplete_entry m -> exists e, format_match m = Raise e.
Proof.
  intros Hsortable (k & Hk & Hlacks).
  destruct (format_match_sortable m Hsortable) as [[r Hr]|(e & He & _)]; [|eauto].
  exfalso. apply Hlacks. destruct Hsortable as (fields & -> & _).
  unfold format_match, provider_fields in *. cbn in *.
  destruct (assoc "1. symbol" fields) eqn:H1; [|discriminate].
  destruct (assoc "2. name" fields) eqn:H2; [|discriminate].
  destruct (assoc "4. region" fields) eqn:H3; [|discriminate].
  destruct (assoc "9. matchScore" fields) eqn:H4; [|discriminate].
  repeat (apply elem_of_cons in Hk as [->|Hk]; [rewrite ?H1, ?H2, ?H3, ?H4; eauto|]).
  inversion Hk.
Qed.

(** C9. When the match list holds an entry that lacks one of the fields
    ['1. symbol'], ['2. name'], ['4. region'] or ['9. matchScore'], the
    sort step still succeeds (a missing score counts as 0) and
    [search_stock_symbol] raises a [KeyError], a lookup error, for one of
    these fields instead of returning. *)
Theorem search_with_incomplete_entry_raises keywords w fields entries :
  http_get_json P (http_log w) (search_url P keywords) = Ok (JDict fields) ->
  assoc "bestMatches" fields = Some (JList entries) ->
  Forall sortable_entry entries ->
  Exists incomplete_entry entries ->
  (exists ordered, py_sorted match_score true entries = Ok ordered) /\
  exists e,
    search_stock_symbol P keywords w = (Raise e, fetched (search_url P keywords) w) /\
    is_lookup_error e = true /\
    exists k, k ∈ provider_fields /\ e = KeyError k.
Proof.
  intros Hget Hbest Hsortable Hincomplete.
  set (key := fun m => match match_score m with Ok f => f | Raise _ => S754_nan end).
  assert (Hsorted : py_sorted match_score true entries
                    = Ok (reverse (sort_stable (fun a b => float_lt (key a) (key b))
                                               (reverse entries)))).
  { apply py_sorted_reverse_ok. eapply Forall_impl; [exact Hsortable|].
    intros m Hm. unfold key. destruct (match_score_sortable m Hm) as [f ->]. reflexivity. }
  split; [eauto|].
  assert (Hperm : reverse (sort_stable (fun a b => float_lt (key a) (key b))
                                       (reverse entries)) ≡ₚ entries).
  { rewrite reverse_Permutation, sort_stable_perm. apply reverse_Permutation. }
  destruct (result_map_raises format_match
              (fun e => exists k, k ∈ provider_fields /\ e = KeyError k)
              (reverse (sort_stable (fun a b => float_lt (key a) (key b))
                                    (reverse entries))))
    as (e & Hraise & k & Hk & ->).
  - rewrite Hperm. eapply Forall_impl; [exact Hsortable|].
    intros m. apply format_match_sortable.
  - rewrite Exists_exists in Hincomplete |- *.
    destruct Hincomplete as (m & Hm & Hlacks). exists m. split.
    + rewrite Hperm. exact Hm.
    + apply format_match_incomplete; [|exact Hlacks].
      rewrite Forall_forall in Hsortable. apply Hsortable, Hm.
  - exists (KeyError k). split; [|split; [reflexivity|eauto]].
    rewrite search_stock_symbol_run, Hget. f_equal.
    change (search_stock_symbol_result (JDict fields) = Raise (KeyError k)).
    unfold search_stock_symbol_result. rewrite py_contains_dict, Hbest.
    cbn [result_bind py_getitem py_iter]. rewrite Hbest.
    replace (bool_decide (is_Some (Some (JList entries)))) with true by reflexivity.
    cbn [result_bind py_iter]. rewrite Hsorted. cbn [result_bind].
    rewrite Hraise. reflexivity.
Qed.

End IncompleteEntries.

Lemma search_with_incomplete_entry_witness :
  (exists ordered,
      py_sorted match_score true
        [best_match "AAPL" "Apple Inc" "United States" "1.0000"; unscored_match]
      = Ok ordered) /\
  exists k,
    k ∈ provider_fields /\
    (search_stock_symbol partial_provider (JStr "Apple") apple_world).1
    = Raise (KeyError k).
Proof.
  destruct (search_with_incomplete_entry_raises partial_provider (JStr "Apple") apple_world
              [("bestMatches", JList [
                  best_match "AAPL" "Apple Inc" "United States" "1.0000"; unscored_match])]
              [best_match "AAPL" "Apple Inc" "United States" "1.0000"; unscored_match]
              eq_refl eq_refl)
    as (Hsort & e & Hrun & _ & k & Hk & ->).
  - repeat constructor; (eexists; split; [reflexivity|]).
    + intros raw [= <-]. eexists. reflexivity.
    + intros raw [=].
  - apply Exists_cons_tl, Exists_cons_hd. exists "9. matchScore".
    split; [unfold provider_fields; set_solver|]. intros [v [=]].
  - split; [exact Hsort|]. exists k. rewrite Hrun. auto.
Defined.

(** The same session, evaluated: the entry with a score is formatted
    first, then the lookup of the missing score raises. *)
Example search_with_unscored_entry :
  (search_stock_symbol partial_provider (JStr "Apple") apple_world).1
  = Raise (KeyError "9. matchScore").
Proof. reflexivity. Qed.

(** The first scenario of the specification, evaluated: the matches come
    back by descending score, the two entries at 0.6 in the provider's
    order. *)
Example search_apple_symbols :
  match_field "1. symbol" <$>
    match py_sorted match_score true
            [best_match "APLE" "Apple Hospitality REIT Inc" "United States" "0.6000";
             best_match "AAPL" "Apple Inc" "United States" "1.0000";
             best_match "APC.FRK" "Apple Inc" "Frankfurt" "0.6000";
             best_match "AAPL34.SAO" "Apple Inc" "Brazil/Sao Paolo" "0.5000"] with
    | Ok ordered => ordered
    | Raise _ => []
    end
  = [JStr "AAPL"; JStr "APLE"; JStr "APC.FRK"; JStr "AAPL34.SAO"].
Proof. reflexivity. Qed.

(** ** The stable ordering is unique

    Python documents [sorted] as stable and as returning its input in
    order. On keys that [<] orders as a strict weak order these two facts
    leave one possible outcome, so the outcome of [sort_stable] is the
    outcome of any implementation of [sorted]. *)

Lemma StronglySorted_from_lookup {A : Type} (R : relation A) (l : list A) :
  (forall i j a b, i < j -> l !! i = Some a -> l !! j = Some b -> R a b) ->
  StronglySorted R l.
Proof.
  induction l as [|x l IH]; intros Hpairs; [constructor|].
  constructor.
  - apply IH. intros i j a b Hij Ha Hb. apply (Hpairs (S i) (S j)); [lia|exact Ha|exact Hb].
  - apply Forall_forall. intros y Hy. apply list_elem_of_lookup in Hy as [j Hj].
    apply (Hpairs 0 (S j)); [lia|reflexivity|exact Hj].
Qed.

Section StableUnique.
Context {A : Type} (lt : A -> A -> bool) (good : A -> Prop).
Hypothesis lt_asym : forall x y, good x -> good y -> lt x y = true -> lt y x = false.

Lemma asym_irrefl x : good x -> lt x x = false.
Proof.
  intros Hx. destruct (lt x x) eqn:Hxx; [|reflexivity].
  rewrite (lt_asym x x Hx Hx Hxx) in Hxx. discriminate.
Qed.

Lemma ascending_head_least x l y :
  good x -> ascending lt (x :: l) -> y ∈ x :: l -> lt y x = false.
Proof.
  intros Hx Hsorted Hy. apply StronglySorted_cons in Hsorted as [Hall _].
  apply elem_of_cons in Hy as [->|Hy]; [apply asym_irrefl, Hx|].
  rewrite Forall_forall in Hall. apply Hall, Hy.
Qed.

Lemma stable_ordering_unique l1 : forall l2,
  Forall good l1 -> l1 ≡ₚ l2 -> ascending lt l1 -> ascending lt l2 ->
  (forall c, good c -> filter (incomparable lt c) l1 = filter (incomparable lt c) l2) ->
  l1 = l2.
Proof.
  induction l1 as [|x l1 IH]; intros l2 Hgood Hperm Hs1 Hs2 Hclasses.
  - symmetry. apply Permutation_nil, Hperm.
  - destruct l2 as [|y l2]; [symmetry in Hperm; apply Permutation_nil_cons in Hperm as []|].
    pose proof Hgood as Hgood'. apply Forall_cons in Hgood' as [Hx Hgood1].
    assert (Hy : good y).
    { rewrite Forall_forall in Hgood. apply Hgood. rewrite Hperm. left. }
    assert (Hyx : lt y x = false).
    { apply (ascending_head_least x l1 y Hx Hs1). rewrite Hperm. left. }
    assert (Hxy : lt x y = false).
    { apply (ascending_head_least y l2 x Hy Hs2). rewrite <- Hperm. left. }
    pose proof (Hclasses x Hx) as Hclass.
    rewrite !filter_cons in Hclass.
    rewrite decide_True in Hclass
      by (unfold incomparable; rewrite (asym_irrefl x Hx); exact I).
    rewrite decide_True in Hclass by (unfold incomparable; rewrite Hxy, Hyx; exact I).
    injection Hclass as -> _. f_equal.
    apply StronglySorted_cons in Hs1 as [_ Hs1], Hs2 as [_ Hs2].
    apply IH; [exact Hgood1|eapply Permutation_cons_inv, Hperm|exact Hs1|exact Hs2|].
    intros c Hc. specialize (Hclasses c Hc). rewrite !filter_cons in Hclasses.
    destruct (decide (incomparable lt c y)); [injection Hclasses as Htl|]; assumption.
Qed.

End StableUnique.

Section UniqueMatches.
Context `{Builtins}.

(** Any list that holds the provider's entries by descending score, with
    entries of equal score in the provider's order, is the list that
    [search_stock_symbol] sorts them into. *)
Lemma sorted_matches_unique entries ordered other :
  Forall provider_entry entries ->
  py_sorted match_score true entries = Ok ordered ->
  other ≡ₚ entries -> by_score_descending other -> keeps_provider_order other entries ->
  other = ordered.
Proof.
  intros Hentries Hsorted Hperm Hdesc Hstable.
  destruct (sorted_matches entries Hentries) as (ordered' & Hsorted' & Hperm' & Hdesc' & Hstable').
  rewrite Hsorted in Hsorted'. injection Hsorted' as <-.
  set (gt := fun a b => float_lt (entry_score b) (entry_score a)).
  set (good := fun m => float_is_nan (entry_score m) = false).
  assert (Hgood : forall l, l ≡ₚ entries -> Forall good l).
  { intros l ->. eapply Forall_impl; [exact Hentries|]. intros m Hm. apply Hm. }
  assert (Hasc : forall l, l ≡ₚ entries -> by_score_descending l -> ascending gt l).
  { intros l Hl Hd. apply StronglySorted_from_lookup. intros i j a b Hij Ha Hb.
    unfold gt. specialize (Hgood l Hl). rewrite Forall_forall in Hgood.
    apply float_le_not_lt;
      [eapply Hgood, list_elem_of_lookup_2, Ha|eapply Hgood, list_elem_of_lookup_2, Hb|].
    eapply Hd; eassumption. }
  apply (stable_ordering_unique gt good).
  - intros x y Hx Hy. unfold gt. apply float_lt_asym; assumption.
  - apply Hgood, Hperm.
  - rewrite Hperm, Hperm'. reflexivity.
  - apply Hasc; assumption.
  - apply Hasc; assumption.
  - intros c Hc.
    assert (Hsame : forall l : list json, filter (incomparable gt c) l
                              = filter (same_score (entry_score c)) l).
    { intros l. apply list_filter_iff. intros m.
      unfold incomparable, gt, same_score, float_same. rewrite andb_comm. reflexivity. }
    rewrite !Hsame, (Hstable _ Hc), (Hstable' _ Hc). reflexivity.
Qed.

End UniqueMatches.

(** In the same session the second response asks for [get_stock_price],
    a function of the registry: the third chat request is issued with
    that request unanswered, and no quote was ever fetched. *)
Example second_round_requests_are_not_dispatched :
  exists q,
    session_requests stray_provider apple_world !! 2 = Some q /\
    length (filter (answers "call_2") (request_messages q)) = 0 /\
    http_log (outside (get_stock_info stray_provider (new_session apple_world)).2) = [].
Proof.
  eexists. split; [vm_compute; reflexivity|]. split; reflexivity.
Qed.

(** * Further properties *)

(** ** Start-up *)


(** ** Quote Gateway: failures *)

Section GatewayFailures.
Context `{Builtins} (P : provider).



(** X4. When ['Global Quote'] is present but holds something other
    than an object, [get_stock_price] raises [AttributeError]; it does
    not fall back to the error marker. *)
Theorem quote_that_is_no_object_raises (symbol : json) (w : world) fields (v : json) :
  http_get_json P (http_log w) (quote_url P symbol) = Ok (JDict fields) ->
  assoc "Global Quote" fields = Some v ->
  (forall quote, v <> JDict quote) ->
  get_stock_price P symbol w = (Raise AttributeError, fetched (quote_url P symbol) w).
Proof.
  intros Hget Hq Hv. rewrite get_stock_price_run, Hget. f_equal.
  apply (get_stock_price_result_not_dict fields v Hq Hv).
Qed.

End GatewayFailures.




Lemma quote_that_is_no_object_raises_witness :
  (get_stock_price (constant_provider (JDict [("Global Quote", JStr "n/a")]))
     (JStr "AAPL") apple_world).1
  = Raise AttributeError.
Proof.
  rewrite (quote_that_is_no_object_raises
             (constant_provider (JDict [("Global Quote", JStr "n/a")]))
             (JStr "AAPL") apple_world [("Global Quote", JStr "n/a")] (JStr "n/a")
             eq_refl eq_refl); [reflexivity|].
  intros quote. discriminate.
Defined.

(** ** Quote Gateway: the match list *)


Lemma result_map_first_failure {A B : Type} (f : A -> result B) (before after : list A)
    (x : A) (e : exn) :
  Forall (fun a => exists b, f a = Ok b) before -> f x = Raise e ->
  result_map f (before ++ x :: after) = Raise e.
Proof.
  intros Hbefore Hx. induction Hbefore as [|a before [b Ha] _ IH]; cbn.
  - rewrite Hx. reflexivity.
  - rewrite Ha. cbn. rewrite IH. reflexivity.
Qed.


Section MatchList.
Context `{Builtins} (P : provider).


(** X6. When the score of an entry does not convert to a float, and
    the entries before it are sortable, [search_stock_symbol] raises what
    [float] raises on that score ([ValueError] for text that is no
    number, [TypeError] for null, a list or an object); no record is
    built. *)
Theorem unconvertible_score_raises keywords w fields before m after entry raw e :
  http_get_json P (http_log w) (search_url P keywords) = Ok (JDict fields) ->
  assoc "bestMatches" fields = Some (JList (before ++ m :: after)) ->
  Forall sortable_entry before ->
  m = JDict entry -> assoc "9. matchScore" entry = Some raw -> py_float raw = Raise e ->
  search_stock_symbol P keywords w = (Raise e, fetched (search_url P keywords) w).
Proof.
  intros Hget Hbest Hbefore -> Hraw He. rewrite search_stock_symbol_run, Hget. f_equal.
  change (search_stock_symbol_result (JDict fields) = Raise e).
  unfold search_stock_symbol_result. rewrite py_contains_dict, Hbest.
  cbn [result_bind py_getitem py_iter]. rewrite Hbest.
  replace (bool_decide (is_Some (Some (JList (before ++ JDict entry :: after)))))
    with true by reflexivity.
  cbn [result_bind py_iter]. unfold py_sorted.
  rewrite (result_map_first_failure match_score before after (JDict entry) e);
    [reflexivity| |].
  - eapply Forall_impl; [exact Hbefore|]. intros a. apply match_score_sortable.
  - unfold match_score. cbn. rewrite Hraw. cbn. exact He.
Qed.

(** X7. When ['bestMatches'] holds null, a number or a boolean,
    [search_stock_symbol] raises [TypeError]: the value cannot be
    iterated over. *)
Theorem match_list_that_is_scalar_raises keywords w fields v :
  http_get_json P (http_log w) (search_url P keywords) = Ok (JDict fields) ->
  assoc "bestMatches" fields = Some v -> scalar v ->
  search_stock_symbol P keywords w = (Raise TypeError, fetched (search_url P keywords) w).
Proof.
  intros Hget Hbest Hv. rewrite search_stock_symbol_run, Hget. f_equal.
  change (search_stock_symbol_result (JDict fields) = Raise TypeError).
  unfold search_stock_symbol_result. rewrite py_contains_dict, Hbest.
  cbn [result_bind py_getitem]. rewrite Hbest.
  destruct v; try contradiction; reflexivity.
Qed.

End MatchList.

Lemma unconvertible_score_raises_witness :
  (search_stock_symbol (constant_provider unrated_matches) (JStr "Apple") apple_world).1
  = Raise ValueError.
Proof.
  rewrite (unconvertible_score_raises (constant_provider unrated_matches)
             (JStr "Apple") apple_world
             [("bestMatches", JList [
                best_match "AAPL" "Apple Inc" "United States" "1.0000";
                best_match "APLE" "Apple Hospitality REIT Inc" "United States" "n/a"])]
             [best_match "AAPL" "Apple Inc" "United States" "1.0000"]
             (best_match "APLE" "Apple Hospitality REIT Inc" "United States" "n/a") []
             [("1. symbol", JStr "APLE"); ("2. name", JStr "Apple Hospitality REIT Inc");
              ("3. type", JStr "Equity"); ("4. region", JStr "United States");
              ("9. matchScore", JStr "n/a")]
             (JStr "n/a") ValueError eq_refl eq_refl); try reflexivity.
  repeat constructor. eexists. split; [reflexivity|].
  intros raw [= <-]. eexists. reflexivity.
Defined.

Lemma match_list_that_is_scalar_raises_witness :
  (search_stock_symbol (constant_provider (JDict [("bestMatches", JNull)]))
     (JStr "Apple") apple_world).1
  = Raise TypeError.
Proof.
  rewrite (match_list_that_is_scalar_raises
             (constant_provider (JDict [("bestMatches", JNull)]))
             (JStr "Apple") apple_world
             [("bestMatches", JNull)] JNull eq_refl eq_refl I).
  reflexivity.
Defined.

(** ** Stream Accumulator: failures and the terminal *)

Lemma join_text_nonempty texts : join_text (filter nonempty_text texts) = join_text texts.
Proof.
  unfold join_text. induction texts as [|t texts IH]; [reflexivity|].
  rewrite filter_cons. destruct (decide (nonempty_text t)) as [Ht|Ht].
  - cbn [foldr]. rewrite IH. reflexivity.
  - destruct t as [|a t]; [exact IH|]. exfalso. apply Ht. exact I.
Qed.

Lemma process_chunks_app acc before after w :
  process_chunks acc (before ++ after) w
  = (let! acc' := process_chunks acc before in process_chunks acc' after) w.
Proof.
  revert acc w. induction before as [|c before IH]; intros acc w.
  - reflexivity.
  - cbn [app process_chunks]. unfold bind.
    destruct (process_chunk acc c w) as [[acc'|e] w1]; [|reflexivity].
    rewrite IH. reflexivity.
Qed.

Lemma process_chunk_only_writes acc c w :
  exists printed, (process_chunk acc c w).2 = wrote printed w.
Proof.
  unfold process_chunk. destruct acc as [full_text calls].
  destruct (choices c) as [|d ds]; [exists []; rewrite wrote_nil; reflexivity|].
  unfold bind, ret, print.
  destruct (delta_content d) as [[|a text]|]; cbn;
    solve [exists []; rewrite wrote_nil; reflexivity | eexists [_]; reflexivity].
Qed.

Lemma process_chunks_only_writes chunks : forall acc w,
  exists printed, (process_chunks acc chunks w).2 = wrote printed w.
Proof.
  induction chunks as [|c chunks IH]; intros acc w.
  - exists []. rewrite wrote_nil. reflexivity.
  - cbn [process_chunks]. rewrite bind_state.
    destruct (process_chunk_only_writes acc c w) as [p1 Hp1].
    destruct (process_chunk acc c w) as [[acc'|e] w1]; cbn in Hp1; subst w1.
    + destruct (IH acc' (wrote p1 w)) as [p2 Hp2]. exists (p1 ++ p2).
      rewrite Hp2, wrote_wrote. reflexivity.
    + eauto.
Qed.

Lemma process_stream_only_writes response w :
  exists printed, (process_stream response w).2 = wrote printed w.
Proof.
  unfold process_stream. rewrite bind_state.
  destruct (process_chunks_only_writes (fragments response) ("", []) w) as [printed Hp].
  destruct (process_chunks ("", []) (fragments response) w) as [[[text calls]|e] w1];
    cbn in Hp; subst w1; [|eauto].
  exists printed. destruct (failure response); reflexivity.
Qed.

Section StreamFailures.
Context `{Builtins} (P : provider).

(** X8. A fragment without choices makes [process_stream] raise
    [IndexError]; the texts of the fragments before it are on the
    terminal by then, and no message is returned. *)
Theorem fragment_without_choice_raises (response : stream) (w : world) before c after :
  fragments response = before ++ c :: after ->
  Forall (fun c => choices c <> []) before ->
  choices c = [] ->
  process_stream response w
  = (Raise IndexError, wrote (filter nonempty_text (fragment_text <$> before)) w).
Proof.
  intros Hfragments Hbefore Hc. unfold process_stream. rewrite Hfragments.
  unfold bind at 1. rewrite process_chunks_app. unfold bind at 1.
  rewrite (process_chunks_spec _ _ _ _ Hbefore).
  cbn [process_chunks]. unfold bind at 1. unfold process_chunk. rewrite Hc. reflexivity.
Qed.

(** X9. When the transport fails after the last fragment received,
    [process_stream] raises that failure; every text received is on the
    terminal, and the accumulated message is lost. *)
Theorem interrupted_stream_raises (response : stream) (w : world) (e : exn) :
  Forall (fun c => choices c <> []) (fragments response) ->
  failure response = Some e ->
  process_stream response w
  = (Raise e, wrote (filter nonempty_text (fragment_text <$> fragments response)) w).
Proof.
  intros Hall Hfail. unfold process_stream. unfold bind at 1.
  rewrite (process_chunks_spec _ _ _ _ Hall), Hfail. reflexivity.
Qed.

(** X10. What [process_stream] writes to the terminal, put together,
    is the content of the message it returns. *)
Theorem terminal_shows_returned_content (response : stream) (w : world) :
  Forall (fun c => choices c <> []) (fragments response) ->
  failure response = None ->
  exists m printed,
    process_stream response w = (Ok m, wrote printed w) /\
    join_text printed = content m.
Proof.
  intros Hall Hend. eexists. eexists. split.
  - unfold process_stream. unfold bind at 1.
    rewrite (process_chunks_spec _ _ _ _ Hall), Hend. reflexivity.
  - cbn. apply join_text_nonempty.
Qed.

(** What a model call does to the world. *)
Lemma get_model_response_world (msgs : list message) (schema : json) (w : world) :
  (exists printed,
      (get_model_response P msgs schema w).2
      = wrote printed
          (requested {| request_messages := msgs; request_tools := schema |} w)) /\
  (forall e,
      chat_completions_create P (chat_log w)
        {| request_messages := msgs; request_tools := schema |} = Raise e ->
      get_model_response P msgs schema w
      = (Raise e, requested {| request_messages := msgs; request_tools := schema |} w)).
Proof.
  unfold get_model_response, create_completion. split.
  - rewrite bind_state.
    destruct (chat_completions_create P (chat_log w) _) as [response|e].
    + apply process_stream_only_writes.
    + exists []. rewrite wrote_nil. reflexivity.
  - intros e He. unfold bind. rewrite He. reflexivity.
Qed.

(** X11. A model call logs its request, with the messages and the
    tool schema it was given, and otherwise only writes to the terminal:
    it fetches nothing and reads no input, whatever its outcome. When the
    request itself fails, the failure is raised and nothing is written. *)
Theorem model_call_effects (msgs : list message) (schema : json) (w : world) :
  (exists printed,
      (get_model_response P msgs schema w).2
      = wrote printed
          (requested {| request_messages := msgs; request_tools := schema |} w)) /\
  (forall e,
      chat_completions_create P (chat_log w)
        {| request_messages := msgs; request_tools := schema |} = Raise e ->
      get_model_response P msgs schema w
      = (Raise e, requested {| request_messages := msgs; request_tools := schema |} w)).
Proof. exact (get_model_response_world msgs schema w). Qed.

End StreamFailures.

Lemma fragment_without_choice_raises_witness :
  process_stream
    {| fragments := [text_chunk "AAPL"; {| choices := [] |}; text_chunk " 150.00"];
       failure := None |} apple_world
  = (Raise IndexError, wrote ["AAPL"] apple_world).
Proof.
  apply (fragment_without_choice_raises
           {| fragments := [text_chunk "AAPL"; {| choices := [] |}; text_chunk " 150.00"];
              failure := None |} apple_world
           [text_chunk "AAPL"] {| choices := [] |} [text_chunk " 150.00"]).
  - reflexivity.
  - repeat constructor; discriminate.
  - reflexivity.
Defined.

Lemma interrupted_stream_raises_witness :
  process_stream
    {| fragments := [text_chunk "AAPL"; text_chunk " trades"];
       failure := Some (ExternalError "connection reset") |} apple_world
  = (Raise (ExternalError "connection reset"), wrote ["AAPL"; " trades"] apple_world).
Proof.
  apply (interrupted_stream_raises
           {| fragments := [text_chunk "AAPL"; text_chunk " trades"];
              failure := Some (ExternalError "connection reset") |} apple_world).
  - repeat constructor; discriminate.
  - reflexivity.
Defined.

Lemma terminal_shows_returned_content_witness :
  exists m printed,
    process_stream
      {| fragments := [text_chunk "AAPL"; text_chunk ""; text_chunk " 150.00"];
         failure := None |} apple_world
    = (Ok m, wrote printed apple_world) /\
    join_text printed = content m.
Proof.
  apply (terminal_shows_returned_content
           {| fragments := [text_chunk "AAPL"; text_chunk ""; text_chunk " 150.00"];
              failure := None |} apple_world).
  - repeat constructor; discriminate.
  - reflexivity.
Defined.

Lemma model_call_effects_witness :
  get_model_response offline_provider [] JNull apple_world
  = (Raise (ExternalError "connection refused"),
     requested {| request_messages := []; request_tools := JNull |} apple_world).
Proof.
  apply (proj2 (model_call_effects offline_provider [] JNull apple_world)).
  reflexivity.
Defined.

(** ** Tool Dispatcher: running the tools *)

Lemma fetched_all_nil w : fetched_all [] w = w.
Proof. destruct w. unfold fetched_all. cbn. rewrite app_nil_r. reflexivity. Qed.

Lemma fetched_all_one url w : fetched_all [url] w = fetched url w.
Proof. reflexivity. Qed.

Lemma fetched_all_app a b w : fetched_all b (fetched_all a w) = fetched_all (a ++ b) w.
Proof. unfold fetched_all. cbn. rewrite app_assoc. reflexivity. Qed.

Lemma session_eta s : {| messages := messages s; outside := outside s |} = s.
Proof. destruct s. reflexivity. Qed.

Section RunningTools.
Context `{Builtins}.

(** The dispatch of one request that reaches its function. *)
Lemma process_tool_call_run (registry : gmap string tool_function) (tc : tool_call)
    (f : tool_function) (kwargs : list (string * json)) (s : session) :
  registry !! name (function tc) = Some f ->
  json_loads (arguments (function tc)) = Some (JDict kwargs) ->
  process_tool_call registry tc s
  = match f kwargs (outside s) with
    | (Ok text, w) =>
        (Ok tt, {| messages := messages s ++ [tool_message (id tc) text]; outside := w |})
    | (Raise e, w) => (Raise e, {| messages := messages s; outside := w |})
    end.
Proof.
  intros Hf Hargs. unfold process_tool_call. cbv zeta. rewrite Hf.
  unfold bind, lift, on_world. rewrite Hargs.
  destruct (f kwargs (outside s)) as [[text|e] w]; reflexivity.
Qed.

(** X12. A request for a registered function with decodable arguments
    runs that function on the decoded mapping. When the function returns,
    one tool-role message with its text and the request's id is appended;
    when it raises, the exception goes through, nothing is appended and
    what the function did to the outside stays done. *)
Theorem dispatch_runs_the_tool (registry : gmap string tool_function) (tc : tool_call)
    (f : tool_function) (kwargs : list (string * json)) (s : session) :
  registry !! name (function tc) = Some f ->
  json_loads (arguments (function tc)) = Some (JDict kwargs) ->
  process_tool_call registry tc s
  = match f kwargs (outside s) with
    | (Ok text, w) =>
        (Ok tt, {| messages := messages s ++ [tool_message (id tc) text]; outside := w |})
    | (Raise e, w) => (Raise e, {| messages := messages s; outside := w |})
    end.
Proof. exact (process_tool_call_run registry tc f kwargs s). Qed.

(** X13. The dispatch of a response whose requests are [a] followed by
    [b] is the dispatch of [a] followed, when it does not raise, by the
    dispatch of [b]. *)
Theorem dispatch_composes (registry : gmap string tool_function)
    (response first second : message) (a b : list tool_call) (s : session) :
  requesting (a ++ b) response -> requesting a first -> requesting b second ->
  process_tool_calls response registry s
  = (let! _ := process_tool_calls first registry in
     process_tool_calls second registry) s.
Proof.
  unfold requesting, process_tool_calls. intros -> -> ->. apply for_each_app.
Qed.

End RunningTools.

Section RegisteredTools.
Context `{Builtins} (P : provider).

Lemma available_functions_parameter function_name param :
  parameter_of function_name = Some param ->
  (function_name = "search_stock_symbol" /\ param = "keywords" /\
   available_functions P !! function_name
   = Some (call_with_kwargs "keywords" (search_stock_symbol P))) \/
  (function_name = "get_stock_price" /\ param = "symbol" /\
   available_functions P !! function_name
   = Some (call_with_kwargs "symbol" (get_stock_price P))).
Proof.
  unfold parameter_of.
  destruct (String.eqb_spec function_name "search_stock_symbol") as [->|Hs].
  - intros [= <-]. left. auto.
  - destruct (String.eqb_spec function_name "get_stock_price") as [->|Hq]; [|discriminate].
    intros [= <-]. right. auto.
Qed.

Lemma call_with_wrong_kwargs param f kwargs w :
  (forall v, kwargs <> [(param, v)]) ->
  call_with_kwargs param f kwargs w = (Raise TypeError, w).
Proof.
  intros Hwrong. unfold call_with_kwargs.
  destruct kwargs as [|[k v] [|? ?]]; try reflexivity.
  destruct (String.eqb_spec k param) as [->|Hk]; [|reflexivity].
  destruct (Hwrong v). reflexivity.
Qed.

Lemma call_with_right_kwargs param f v w :
  call_with_kwargs param f [(param, v)] w = f v w.
Proof. unfold call_with_kwargs. rewrite String.eqb_refl. reflexivity. Qed.

(** X14. When the decoded arguments of a request for
    [search_stock_symbol] or [get_stock_price] are not exactly the one
    parameter that the function declares ([keywords], [symbol]), the
    call raises [TypeError] before anything is fetched: the session is
    left as it was. *)
Theorem wrong_keyword_raises_before_any_fetch (tc : tool_call) (param : string)
    (kwargs : list (string * json)) (s : session) :
  parameter_of (name (function tc)) = Some param ->
  json_loads (arguments (function tc)) = Some (JDict kwargs) ->
  (forall v, kwargs <> [(param, v)]) ->
  process_tool_call (available_functions P) tc s = (Raise TypeError, s).
Proof.
  intros Hparam Hargs Hwrong.
  destruct (available_functions_parameter _ _ Hparam)
    as [(_ & -> & Hf)|(_ & -> & Hf)];
    rewrite (process_tool_call_run _ _ _ _ _ Hf Hargs),
      (call_with_wrong_kwargs _ _ _ _ Hwrong), session_eta; reflexivity.
Qed.

(** X15. A request for [search_stock_symbol] whose arguments decode
    to the single keyword [keywords] fetches the search URL of its value
    once and, when the response yields a text, appends that text as the
    tool-role message of the request. *)
Theorem search_request_is_answered_with_the_matches (tc : tool_call) (v data : json)
    (text : string) (s : session) :
  name (function tc) = "search_stock_symbol" ->
  json_loads (arguments (function tc)) = Some (JDict [("keywords", v)]) ->
  http_get_json P (http_log (outside s)) (search_url P v) = Ok data ->
  search_stock_symbol_result data = Ok text ->
  process_tool_call (available_functions P) tc s
  = (Ok tt, {| messages := messages s ++ [tool_message (id tc) text];
               outside := fetched (search_url P v) (outside s) |}).
Proof.
  intros Hname Hargs Hget Htext.
  rewrite (process_tool_call_run (available_functions P) tc
             (call_with_kwargs "keywords" (search_stock_symbol P)) [("keywords", v)] s);
    [|rewrite Hname; reflexivity|exact Hargs].
  rewrite call_with_right_kwargs, search_stock_symbol_run, Hget. cbn [result_bind]. rewrite Htext. reflexivity.
Qed.

(** X16. A request for [get_stock_price] whose arguments decode to the
    single keyword [symbol] fetches the quote URL of its value once and,
    when the response yields a text, appends that text as the tool-role
    message of the request. *)
Theorem quote_request_is_answered_with_the_quote (tc : tool_call) (v data : json)
    (text : string) (s : session) :
  name (function tc) = "get_stock_price" ->
  json_loads (arguments (function tc)) = Some (JDict [("symbol", v)]) ->
  http_get_json P (http_log (outside s)) (quote_url P v) = Ok data ->
  get_stock_price_result data = Ok text ->
  process_tool_call (available_functions P) tc s
  = (Ok tt, {| messages := messages s ++ [tool_message (id tc) text];
               outside := fetched (quote_url P v) (outside s) |}).
Proof.
  intros Hname Hargs Hget Htext.
  rewrite (process_tool_call_run (available_functions P) tc
             (call_with_kwargs "symbol" (get_stock_price P)) [("symbol", v)] s);
    [|rewrite Hname; reflexivity|exact Hargs].
  rewrite call_with_right_kwargs, get_stock_price_run, Hget. cbn [result_bind]. rewrite Htext. reflexivity.
Qed.

(** What a registered function does to the outside: nothing, or one fetch. *)
Lemma registered_tool_fetches_at_most_once function_name (f : tool_function) kwargs w :
  available_functions P !! function_name = Some f ->
  exists urls, (f kwargs w).2 = fetched_all urls w /\ length urls <= 1.
Proof.
  intros Hf.
  assert (Hcall : forall param g,
             (forall v, exists url, (g v w).2 = fetched url w) ->
             exists urls, (call_with_kwargs param g kwargs w).2 = fetched_all urls w
                          /\ length urls <= 1).
  { intros param g Hg. unfold call_with_kwargs.
    destruct kwargs as [|[k v] [|? ?]];
      try (exists []; rewrite fetched_all_nil; split; [reflexivity|cbn; lia]).
    destruct (String.eqb k param);
      [|exists []; rewrite fetched_all_nil; split; [reflexivity|cbn; lia]].
    destruct (Hg v) as [url Hurl]. exists [url]. split; [exact Hurl|cbn; lia]. }
  unfold available_functions in Hf.
  apply lookup_insert_Some in Hf as [[_ <-]|[_ Hf]].
  - apply Hcall. intros v. rewrite search_stock_symbol_run. eauto.
  - apply lookup_singleton_Some in Hf as [_ <-].
    apply Hcall. intros v. rewrite get_stock_price_run. eauto.
Qed.

Lemma process_tool_call_fetches tc s :
  exists urls,
    outside (process_tool_call (available_functions P) tc s).2
    = fetched_all urls (outside s) /\
    length urls <= length (known_calls (available_functions P) [tc]).
Proof.
  unfold process_tool_call, known_calls. cbv zeta. rewrite filter_cons, filter_nil.
  destruct (available_functions P !! name (function tc)) as [f|] eqn:Hf.
  - rewrite decide_True by eauto. cbn [length].
    unfold bind, lift, on_world.
    destruct (json_loads (arguments (function tc))) as [[| | | | | |kwargs]|];
      try (exists []; rewrite fetched_all_nil; split; [reflexivity|cbn; lia]).
    destruct (registered_tool_fetches_at_most_once _ f kwargs (outside s) Hf)
      as (urls & Hurls & Hlen).
    exists urls. destruct (f kwargs (outside s)) as [[text|e] w]; cbn in *; auto.
  - rewrite decide_False by (intros [? ?]; discriminate).
    exists []. rewrite fetched_all_nil. split; [reflexivity|cbn; lia].
Qed.

(** What the dispatch of a response does to the outside. *)
Lemma process_tool_calls_fetches (response : message) (s : session) :
  exists urls,
    outside (process_tool_calls response (available_functions P) s).2
    = fetched_all urls (outside s) /\
    length urls
    <= length (known_calls (available_functions P) (default [] (tool_calls response))).
Proof.
  unfold process_tool_calls. generalize (default [] (tool_calls response)).
  intros calls. revert s. induction calls as [|tc calls IH]; intros s.
  - exists []. rewrite fetched_all_nil. split; [reflexivity|cbn; lia].
  - cbn [for_each]. rewrite bind_state.
    destruct (process_tool_call_fetches tc s) as (u1 & Hu1 & Hl1).
    change (tc :: calls) with ([tc] ++ calls). unfold known_calls in *.
    rewrite filter_app, length_app.
    destruct (process_tool_call (available_functions P) tc s) as [[[]|e] s1]; cbn in Hu1.
    + destruct (IH s1) as (u2 & Hu2 & Hl2). exists (u1 ++ u2).
      rewrite Hu2, Hu1, fetched_all_app, length_app. split; [reflexivity|lia].
    + exists u1. split; [exact Hu1|lia].
Qed.

(** X17. Dispatching the requests of a response writes nothing to the
    terminal, reads no input and issues no chat request; it fetches at
    most one URL per request that names [search_stock_symbol] or
    [get_stock_price], and none for any other request. *)
Theorem dispatch_fetches_at_most_once_per_known_request (response : message) (s : session) :
  exists urls,
    outside (process_tool_calls response (available_functions P) s).2
    = fetched_all urls (outside s) /\
    length urls
    <= length (known_calls (available_functions P) (default [] (tool_calls response))).
Proof. exact (process_tool_calls_fetches response s). Qed.

End RegisteredTools.

Lemma dispatch_runs_the_tool_witness :
  process_tool_call (available_functions apple_provider)
    (a_call "call_1" "search_stock_symbol" keywords_apple) (new_session apple_world)
  = match call_with_kwargs "keywords" (search_stock_symbol apple_provider)
            [("keywords", JStr "Apple")] apple_world with
    | (Ok text, w) =>
        (Ok tt, {| messages := [] ++ [tool_message "call_1" text]; outside := w |})
    | (Raise e, w) => (Raise e, {| messages := []; outside := w |})
    end.
Proof.
  apply (dispatch_runs_the_tool (available_functions apple_provider)
           (a_call "call_1" "search_stock_symbol" keywords_apple)
           (call_with_kwargs "keywords" (search_stock_symbol apple_provider))
           [("keywords", JStr "Apple")] (new_session apple_world));
    reflexivity.
Defined.

Lemma dispatch_composes_witness :
  process_tool_calls
    {| role := "assistant"; content := "";
       tool_calls := Some [a_call "call_1" "search_stock_symbol" keywords_apple;
                           a_call "call_2" "get_stock_price" symbol_aapl];
       tool_call_id := None |}
    (available_functions apple_provider) (new_session apple_world)
  = (let! _ := process_tool_calls
                 {| role := "assistant"; content := "";
                    tool_calls := Some [a_call "call_1" "search_stock_symbol" keywords_apple];
                    tool_call_id := None |}
                 (available_functions apple_provider) in
     process_tool_calls
       {| role := "assistant"; content := "";
          tool_calls := Some [a_call "call_2" "get_stock_price" symbol_aapl];
          tool_call_id := None |}
       (available_functions apple_provider)) (new_session apple_world).
Proof.
  apply (dispatch_composes (available_functions apple_provider) _ _ _
           [a_call "call_1" "search_stock_symbol" keywords_apple]
           [a_call "call_2" "get_stock_price" symbol_aapl]);
    reflexivity.
Defined.

Lemma wrong_keyword_raises_witness :
  process_tool_call (available_functions apple_provider)
    (a_call "call_1" "search_stock_symbol" symbol_aapl) (new_session apple_world)
  = (Raise TypeError, new_session apple_world).
Proof.
  apply (wrong_keyword_raises_before_any_fetch apple_provider
           (a_call "call_1" "search_stock_symbol" symbol_aapl) "keywords"
           [("symbol", JStr "AAPL")] (new_session apple_world)).
  - reflexivity.
  - reflexivity.
  - intros v. discriminate.
Defined.

Lemma search_request_is_answered_witness :
  exists text,
    process_tool_call (available_functions apple_provider)
      (a_call "call_1" "search_stock_symbol" keywords_apple) (new_session apple_world)
    = (Ok tt, {| messages := [] ++ [tool_message "call_1" text];
                 outside := fetched (search_url apple_provider (JStr "Apple")) apple_world |}).
Proof.
  destruct (search_stock_symbol_result apple_matches) as [text|e] eqn:Htext;
    [|vm_compute in Htext; discriminate].
  exists text.
  apply (search_request_is_answered_with_the_matches apple_provider
           (a_call "call_1" "search_stock_symbol" keywords_apple) (JStr "Apple")
           apple_matches text (new_session apple_world));
    [reflexivity|reflexivity|reflexivity|exact Htext].
Defined.

Lemma quote_request_is_answered_witness :
  exists text,
    process_tool_call (available_functions apple_provider)
      (a_call "call_2" "get_stock_price" symbol_aapl) (new_session apple_world)
    = (Ok tt, {| messages := [] ++ [tool_message "call_2" text];
                 outside := fetched (quote_url apple_provider (JStr "AAPL")) apple_world |}).
Proof.
  destruct (get_stock_price_result aapl_quote) as [text|e] eqn:Htext;
    [|vm_compute in Htext; discriminate].
  exists text.
  apply (quote_request_is_answered_with_the_quote apple_provider
           (a_call "call_2" "get_stock_price" symbol_aapl) (JStr "AAPL")
           aapl_quote text (new_session apple_world));
    [reflexivity|reflexivity|reflexivity|exact Htext].
Defined.


(** ** The session as a whole *)

Lemma issues_weaken {A : Type} schema lo hi lo' hi' (m : M session A) s :
  issues schema lo hi m s -> lo' <= lo -> hi <= hi' -> issues schema lo' hi' m s.
Proof.
  intros (requests & Hlog & Hlen & Hall) Hlo Hhi. exists requests.
  split; [exact Hlog|]. split; [lia|exact Hall].
Qed.

Lemma issues_bind {A B : Type} schema lo1 hi1 hi2 (m : M session A) (k : A -> M session B) s :
  issues schema lo1 hi1 m s ->
  (forall a s1, m s = (Ok a, s1) -> issues schema 0 hi2 (k a) s1) ->
  issues schema lo1 (hi1 + hi2) (bind m k) s.
Proof.
  intros (r1 & Hlog1 & Hlen1 & Hall1) Hk. unfold issues. rewrite bind_state.
  destruct (m s) as [[a|e] s1]; cbn in Hlog1.
  - destruct (Hk a s1 eq_refl) as (r2 & Hlog2 & Hlen2 & Hall2).
    exists (r1 ++ r2). rewrite Hlog2, Hlog1, app_assoc, length_app.
    split; [reflexivity|]. split; [lia|]. apply Forall_app. auto.
  - exists r1. split; [exact Hlog1|]. split; [lia|exact Hall1].
Qed.

Lemma issues_none {A : Type} schema (m : M session A) s :
  chat_log (outside (m s).2) = chat_log (outside s) -> issues schema 0 0 m s.
Proof.
  intros Hlog. exists []. rewrite app_nil_r. split; [exact Hlog|].
  split; [cbn; lia|constructor].
Qed.

Lemma issues_read_bind {B : Type} schema lo hi (k : list message -> M session B) s :
  issues schema lo hi (k (messages s)) s -> issues schema lo hi (bind read_messages k) s.
Proof. intros Hk. exact Hk. Qed.

Section SessionShape.
Context `{Builtins} (P : provider).

Lemma issues_model_call msgs schema s :
  issues schema 1 1 (on_world (get_model_response P msgs schema)) s.
Proof.
  exists [{| request_messages := msgs; request_tools := schema |}].
  destruct (on_world (get_model_response P msgs schema) s) as [r s'] eqn:Hrun.
  apply model_call_inv in Hrun as (_ & Hlog & _).
  split; [exact Hlog|]. split; [cbn; lia|repeat constructor].
Qed.

Lemma issues_dispatch schema response s :
  issues schema 0 0 (process_tool_calls response (available_functions P)) s.
Proof.
  apply issues_none.
  destruct (process_tool_calls response (available_functions P) s) as [r s'] eqn:Hrun.
  apply (process_tool_calls_inv _ _ _ _ _ (quiet_available_functions P)) in Hrun as [Hlog _].
  exact Hlog.
Qed.

Lemma issues_input schema prompt s : issues schema 0 0 (on_world (input prompt)) s.
Proof.
  apply issues_none.
  destruct (on_world (input prompt) s) as [r s'] eqn:Hrun.
  apply (quiet_on_world_inv _ _ _ _ (quiet_input _)) in Hrun as [_ Hlog]. exact Hlog.
Qed.

Lemma issues_conversation_rounds s : issues tools 1 4 (conversation_rounds P) s.
Proof.
  unfold conversation_rounds.
  apply issues_read_bind.
  apply (issues_bind tools 1 1 3); [apply issues_model_call|intros response1 s1 _].
  apply (issues_bind tools 0 0 3); [apply issues_none; reflexivity|intros _ s2 _].
  apply (issues_bind tools 0 0 3); [apply issues_dispatch|intros _ s3 _].
  apply issues_read_bind.
  apply (issues_bind tools 0 1 2);
    [eapply issues_weaken; [apply issues_model_call|lia|lia]|intros response2 s4 _].
  apply (issues_bind tools 0 0 2); [apply issues_none; reflexivity|intros _ s5 _].
  apply (issues_bind tools 0 0 2); [apply issues_input|intros user_choice s6 _].
  apply (issues_bind tools 0 0 2); [apply issues_none; reflexivity|intros _ s7 _].
  apply issues_read_bind.
  apply (issues_bind tools 0 1 1);
    [eapply issues_weaken; [apply issues_model_call|lia|lia]|intros response3 s8 _].
  apply (issues_bind tools 0 0 1); [apply issues_none; reflexivity|intros _ s9 _].
  destruct (tool_calls response3) as [[|tc calls]|];
    try (eapply issues_weaken; [apply issues_none; reflexivity|lia|lia]).
  apply (issues_bind tools 0 0 1); [apply issues_dispatch|intros _ s10 _].
  apply issues_read_bind.
  apply (issues_bind tools 0 1 0);
    [eapply issues_weaken; [apply issues_model_call|lia|lia]|intros response4 s11 _].
  apply issues_none. reflexivity.
Qed.

End SessionShape.

Section SessionTheorems.
Context `{Builtins} (P : provider).

Lemma get_stock_info_run w :
  get_stock_info P (new_session w)
  = match stdin w with
    | [] => (Raise EOFError, new_session (wrote [query_prompt] w))
    | stock_query :: rest =>
        conversation_rounds P
          {| messages := initial_messages stock_query;
             outside := {| stdin := rest; stdout := stdout w ++ [query_prompt];
                           http_log := http_log w; chat_log := chat_log w |} |}
    end.
Proof.
  unfold get_stock_info, bind, on_world, input, new_session. cbn [outside messages].
  fold query_prompt.
  destruct w as [[|stock_query rest] out urls log]; reflexivity.
Qed.

(** X18. A session calls the model at most four times, always with
    the same two-tool schema. When no query can be read it ends with
    [EOFError] before any call; otherwise its first call carries the
    system prompt and the question built from the query. *)
Theorem session_issues_at_most_four_requests (w : world) :
  length (session_requests P w) <= 4 /\
  Forall (fun q => request_tools q = tools) (session_requests P w) /\
  match stdin w with
  | [] =>
      get_stock_info P (new_session w)
      = (Raise EOFError, new_session (wrote [query_prompt] w))
      /\ session_requests P w = []
  | stock_query :: _ =>
      exists q more,
        session_requests P w = q :: more /\
        request_messages q = initial_messages stock_query
  end.
Proof.
  unfold session_requests. rewrite get_stock_info_run.
  destruct (stdin w) as [|stock_query rest] eqn:Hstdin.
  - cbn [snd new_session outside wrote chat_log]. rewrite drop_all.
    split; [cbn; lia|]. split; [constructor|]. split; reflexivity.
  - set (s := {| messages := initial_messages stock_query; outside := _ |}).
    destruct (issues_conversation_rounds P s) as (requests & Hlog & Hlen & Hall).
    destruct (conversation_rounds P s) as [r s'] eqn:Hrun. cbn [snd] in *.
    apply conversation_rounds_chain in Hrun as (requests' & Hlog' & Hfirst & _).
    assert (requests' = requests) as ->.
    { rewrite Hlog in Hlog'. eapply app_inv_head, eq_sym, Hlog'. }
    rewrite Hlog. cbn [outside chat_log s]. rewrite drop_app_length.
    split; [lia|]. split; [exact Hall|].
    destruct requests as [|q more]; [cbn in Hlen; lia|].
    exists q, more. split; [reflexivity|]. apply Hfirst. reflexivity.
Qed.

End SessionTheorems.

Section CompletedSession.
Context `{Builtins} (P : provider).

Lemma model_call_world msgs schema s r s' :
  on_world (get_model_response P msgs schema) s = (r, s') ->
  messages s' = messages s /\
  stdin (outside s') = stdin (outside s) /\
  chat_log (outside s')
  = chat_log (outside s) ++ [{| request_messages := msgs; request_tools := schema |}].
Proof.
  intros Hrun. destruct (get_model_response_world P msgs schema (outside s)) as [[printed Hw] _].
  unfold on_world in Hrun.
  destruct (get_model_response P msgs schema (outside s)) as [r0 w]. cbn in Hw. subst w.
  inversion Hrun; subst. repeat split; reflexivity.
Qed.

Lemma dispatch_world response s r s' :
  process_tool_calls response (available_functions P) s = (r, s') ->
  stdin (outside s') = stdin (outside s) /\
  chat_log (outside s') = chat_log (outside s) /\
  exists replies,
    messages s' = messages s ++ replies /\
    (r = Ok tt ->
     Forall2 reply_to
       (known_calls (available_functions P) (default [] (tool_calls response))) replies).
Proof.
  intros Hrun.
  destruct (process_tool_calls_fetches P response s)
    as (urls & Hw & _).
  rewrite Hrun in Hw. cbn [snd] in Hw.
  apply (process_tool_calls_inv _ _ _ _ _ (quiet_available_functions P)) in Hrun
    as (Hlog & Hreplies).
  rewrite Hw. repeat split; [exact Hreplies].
Qed.

Lemma input_world prompt s line s' :
  on_world (input prompt) s = (Ok line, s') ->
  messages s' = messages s /\
  stdin (outside s) = line :: stdin (outside s') /\
  chat_log (outside s') = chat_log (outside s).
Proof.
  unfold on_world, input. destruct (stdin (outside s)) as [|l rest] eqn:Hin;
    intros Hrun; inversion Hrun; subst. cbn. auto.
Qed.

(** The rounds that run to their end. *)
Lemma conversation_rounds_success s s' :
  conversation_rounds P s = (Ok tt, s') ->
  exists response1 replies1 response2 user_choice response3 replies3,
    stdin (outside s) = user_choice :: stdin (outside s') /\
    messages s'
    = ((messages s ++ response1 :: replies1) ++ [response2; choice_message user_choice])
      ++ response3 :: replies3 /\
    chat_log (outside s')
    = chat_log (outside s)
      ++ [{| request_messages := messages s; request_tools := tools |};
          {| request_messages := messages s ++ response1 :: replies1;
             request_tools := tools |};
          {| request_messages :=
               (messages s ++ response1 :: replies1)
               ++ [response2; choice_message user_choice];
             request_tools := tools |}]
      ++ (if has_calls response3
          then [{| request_messages := messages s'; request_tools := tools |}]
          else []) /\
    (has_calls response3 = false -> replies3 = []).
Proof.
  intros Hrun. unfold conversation_rounds in Hrun.
  apply bind_inv in Hrun as [(msgs1 & s0 & Hread & Hrun)|(e & _ & [=])].
  destruct (read_messages_inv _ _ _ _ Hread eq_refl) as [-> ->]. clear Hread.
  apply bind_inv in Hrun as [(response1 & s1 & Hcall & Hrun)|(e & _ & [=])].
  apply model_call_world in Hcall as (Hm1 & Hi1 & Hl1).
  apply bind_inv in Hrun as [([] & s2 & Happ & Hrun)|(e & _ & [=])].
  apply append_message_inv in Happ as (_ & Hm2 & Ho2).
  apply bind_inv in Hrun as [([] & s3 & Hdisp & Hrun)|(e & _ & [=])].
  apply dispatch_world in Hdisp as (Hi3 & Hl3 & replies1 & Hm3 & _).
  assert (Hm3' : messages s3 = messages s ++ response1 :: replies1).
  { rewrite Hm3, Hm2, Hm1, <- app_assoc. reflexivity. }
  apply bind_inv in Hrun as [(msgs2 & s0 & Hread & Hrun)|(e & _ & [=])].
  destruct (read_messages_inv _ _ _ _ Hread eq_refl) as [-> ->]. clear Hread.
  apply bind_inv in Hrun as [(response2 & s4 & Hcall & Hrun)|(e & _ & [=])].
  apply model_call_world in Hcall as (Hm4 & Hi4 & Hl4).
  apply bind_inv in Hrun as [([] & s5 & Happ & Hrun)|(e & _ & [=])].
  apply append_message_inv in Happ as (_ & Hm5 & Ho5).
  apply bind_inv in Hrun as [(user_choice & s6 & Hin & Hrun)|(e & _ & [=])].
  apply input_world in Hin as (Hm6 & Hi6 & Hl6).
  apply bind_inv in Hrun as [([] & s7 & Happ & Hrun)|(e & _ & [=])].
  apply append_message_inv in Happ as (_ & Hm7 & Ho7).
  fold (choice_message user_choice) in Hm7.
  assert (Hm7' : messages s7
                 = (messages s ++ response1 :: replies1)
                   ++ [response2; choice_message user_choice]).
  { rewrite Hm7, Hm6, Hm5, Hm4, Hm3', <- !app_assoc. reflexivity. }
  apply bind_inv in Hrun as [(msgs3 & s0 & Hread & Hrun)|(e & _ & [=])].
  destruct (read_messages_inv _ _ _ _ Hread eq_refl) as [-> ->]. clear Hread.
  apply bind_inv in Hrun as [(response3 & s8 & Hcall & Hrun)|(e & _ & [=])].
  apply model_call_world in Hcall as (Hm8 & Hi8 & Hl8).
  apply bind_inv in Hrun as [([] & s9 & Happ & Hrun)|(e & _ & [=])].
  apply append_message_inv in Happ as (_ & Hm9 & Ho9).
  assert (Hin9 : stdin (outside s) = user_choice :: stdin (outside s9)).
  { rewrite Ho9, Hi8, Ho7, <- Hi6, Ho5, Hi4, Hi3, Ho2, Hi1. reflexivity. }
  assert (Hl9 : chat_log (outside s9)
                = chat_log (outside s)
                  ++ [{| request_messages := messages s; request_tools := tools |};
                      {| request_messages := messages s ++ response1 :: replies1;
                         request_tools := tools |};
                      {| request_messages :=
                           (messages s ++ response1 :: replies1)
                           ++ [response2; choice_message user_choice];
                         request_tools := tools |}]).
  { rewrite Ho9, Hl8, Ho7, Hl6, Ho5, Hl4, Hl3, Ho2, Hl1, Hm7', Hm3', <- !app_assoc.
    reflexivity. }
  unfold has_calls.
  destruct (tool_calls response3) as [[|tc calls]|] eqn:Hcalls.
  - inversion Hrun; subst. exists response1, replies1, response2, user_choice, response3, [].
    rewrite Hm9, Hm8, Hm7', Hl9, Hcalls, app_nil_r. auto.
  - apply bind_inv in Hrun as [([] & s10 & Hdisp & Hrun)|(e & _ & [=])].
    apply dispatch_world in Hdisp as (Hi10 & Hl10 & replies3 & Hm10 & _).
    apply bind_inv in Hrun as [(msgs4 & s0 & Hread & Hrun)|(e & _ & [=])].
    destruct (read_messages_inv _ _ _ _ Hread eq_refl) as [-> ->]. clear Hread.
    apply bind_inv in Hrun as [(response4 & s11 & Hcall & Hrun)|(e & _ & [=])].
    apply model_call_world in Hcall as (Hm11 & Hi11 & Hl11).
    inversion Hrun; subst.
    exists response1, replies1, response2, user_choice, response3, replies3.
    rewrite Hcalls, Hi11, Hi10, Hl11, Hl10, Hl9, Hm11.
    split; [exact Hin9|]. split.
    + rewrite Hm10, Hm9, Hm8, Hm7', <- (app_assoc _ [response3]). reflexivity.
    + split; [rewrite <- app_assoc; reflexivity|discriminate].
  - inversion Hrun; subst. exists response1, replies1, response2, user_choice, response3, [].
    rewrite Hm9, Hm8, Hm7', Hl9, Hcalls, app_nil_r. auto.
Qed.

End CompletedSession.

Section CompletedSessionTheorems.
Context `{Builtins} (P : provider).

Lemma completed_session w s' :
  get_stock_info P (new_session w) = (Ok tt, s') ->
  exists stock_query response1 replies1 response2 user_choice response3 replies3,
    stdin w = stock_query :: user_choice :: stdin (outside s') /\
    messages s'
    = ((initial_messages stock_query ++ response1 :: replies1)
       ++ [response2; choice_message user_choice]) ++ response3 :: replies3 /\
    session_requests P w
    = [{| request_messages := initial_messages stock_query; request_tools := tools |};
       {| request_messages := initial_messages stock_query ++ response1 :: replies1;
          request_tools := tools |};
       {| request_messages :=
            (initial_messages stock_query ++ response1 :: replies1)
            ++ [response2; choice_message user_choice];
          request_tools := tools |}]
      ++ (if has_calls response3
          then [{| request_messages := messages s'; request_tools := tools |}]
          else []) /\
    (has_calls response3 = false -> replies3 = []).
Proof.
  unfold session_requests. intros Hrun. rewrite Hrun. cbn [snd].
  rewrite get_stock_info_run in Hrun.
  destruct (stdin w) as [|stock_query rest] eqn:Hstdin; [discriminate|].
  apply conversation_rounds_success in Hrun
    as (response1 & replies1 & response2 & user_choice & response3 & replies3
        & Hin & Hmsgs & Hlog & Hnone).
  cbn [outside messages stdin chat_log] in Hin, Hmsgs, Hlog.
  exists stock_query, response1, replies1, response2, user_choice, response3, replies3.
  rewrite Hlog, drop_app_length, Hin. auto.
Qed.

(** X19. A session that runs to its end has called the model three
    times when the third response asks for no tool, and four times when
    it does. The answer to the fourth call is not appended: the final
    list is the one that call was sent. Without a fourth call the final
    list is the third one sent, followed by the third response. *)
Theorem completed_session_calls (w : world) (s' : session) :
  get_stock_info P (new_session w) = (Ok tt, s') ->
  exists q1 q2 q3 response3,
    (has_calls response3 = false /\
     session_requests P w = [q1; q2; q3] /\
     messages s' = request_messages q3 ++ [response3])
    \/ (has_calls response3 = true /\
        exists q4 replies,
          session_requests P w = [q1; q2; q3; q4] /\
          request_messages q4 = request_messages q3 ++ response3 :: replies /\
          messages s' = request_messages q4).
Proof.
  intros Hrun.
  destruct (completed_session w s' Hrun)
    as (stock_query & response1 & replies1 & response2 & user_choice & response3
        & replies3 & _ & Hmsgs & Hrequests & Hnone).
  do 3 eexists. exists response3. rewrite Hrequests.
  destruct (has_calls response3).
  - right. split; [reflexivity|]. do 2 eexists. split; [reflexivity|].
    split; [exact Hmsgs|reflexivity].
  - left. split; [reflexivity|]. split; [reflexivity|].
    rewrite Hmsgs, (Hnone eq_refl). reflexivity.
Qed.

(** X20. A session that runs to its end has read exactly two lines:
    the query, which opens the conversation, and the choice, which is
    recorded as typed, unchecked, in the message that the third call is
    sent after the second response. *)
Theorem completed_session_reads_two_lines (w : world) (s' : session) :
  get_stock_info P (new_session w) = (Ok tt, s') ->
  exists stock_query user_choice q1 q2 q3 more response2,
    stdin w = stock_query :: user_choice :: stdin (outside s') /\
    session_requests P w = q1 :: q2 :: q3 :: more /\
    request_messages q1 = initial_messages stock_query /\
    request_messages q3 = request_messages q2 ++ [response2; choice_message user_choice].
Proof.
  intros Hrun.
  destruct (completed_session w s' Hrun)
    as (stock_query & response1 & replies1 & response2 & user_choice & response3
        & replies3 & Hin & _ & Hrequests & _).
  exists stock_query, user_choice. do 4 eexists. exists response2.
  rewrite Hrequests. split; [exact Hin|]. split; [reflexivity|]. split; reflexivity.
Qed.

End CompletedSessionTheorems.

Lemma completed_session_calls_witness :
  exists s' q1 q2 q3 q4,
    get_stock_info apple_provider (new_session apple_world) = (Ok tt, s') /\
    session_requests apple_provider apple_world = [q1; q2; q3; q4] /\
    messages s' = request_messages q4.
Proof.
  destruct (get_stock_info apple_provider (new_session apple_world)) as [[[]|e] s']
    eqn:Hrun; [|vm_compute in Hrun; discriminate].
  destruct (completed_session_calls apple_provider apple_world s' Hrun)
    as (q1 & q2 & q3 & response3 & [(_ & Hthree & _)|(_ & q4 & replies & Hfour & _ & Hlast)]).
  - apply (f_equal length) in Hthree. vm_compute in Hthree. discriminate.
  - exists s', q1, q2, q3, q4. auto.
Defined.

Lemma completed_session_reads_two_lines_witness :
  exists s' q1 q2 q3 more response2,
    get_stock_info apple_provider (new_session apple_world) = (Ok tt, s') /\
    stdin (outside s') = [] /\
    session_requests apple_provider apple_world = q1 :: q2 :: q3 :: more /\
    request_messages q3 = request_messages q2 ++ [response2; choice_message "1"].
Proof.
  destruct (get_stock_info apple_provider (new_session apple_world)) as [[[]|e] s']
    eqn:Hrun; [|vm_compute in Hrun; discriminate].
  destruct (completed_session_reads_two_lines apple_provider apple_world s' Hrun)
    as (stock_query & user_choice & q1 & q2 & q3 & more & response2
        & Hin & Hrequests & _ & Hthird).
  cbn in Hin. injection Hin as <- <- Hrest.
  exists s', q1, q2, q3, more, response2. auto.
Defined.

Section CompleteEntries.
Context `{Builtins} (P : provider).



End CompleteEntries.

